(** * lrserver: a LiveReload server (server.go)

    A shallow embedding of [server.go] of package [lrserver] and a
    verification of the server facade: construction, configuration,
    address helpers, connection registration and broadcast.

    Conventions.
    - A Go [string] is a [string] (a sequence of bytes); a [uint16] or
      [uint64] is a [Z] whose wrap-around is written out where the source
      converts or overflows.
    - A nil-able pointer ([*log.Logger], [error]) is an [option].
    - A [*conn] is an address into a heap of [conn] objects; a channel is
      an identity drawn from a counter.
    - Methods that only read or write fields of their receiver are
      functions on [Server]; methods with other effects run in the monad
      [M] over [State], whose [srv] component is the receiver. *)

From Stdlib Require Import ZArith Lia Ascii String.
From Equations Require Import Equations.
From stdpp Require Import gmap strings list.
Local Open Scope Z_scope.

(** ** The Go standard library, as far as [server.go] calls it *)

Inductive num_err := ErrSyntax | ErrRange | ErrBase | ErrBitSize.

(** Values of Go's [error] interface that reach this package. *)
Inductive error :=
| AddrError (Err Addr : string)                 (* net.AddrError *)
| NumError (Func Num : string) (Err : num_err)  (* strconv.NumError *)
| OpError (msg : string).                       (* what the operating system reports *)

Definition byte_val (c : ascii) : Z := Z.of_nat (nat_of_ascii c).

Definition len (s : string) : Z := Z.of_nat (String.length s).

(** [s[lo:hi]] and [s[lo:]]; every use below has [0 <= lo <= hi <= len s]. *)
Definition slice (s : string) (lo hi : Z) : string :=
  String.substring (Z.to_nat lo) (Z.to_nat (hi - lo)) s.

Definition slice_from (s : string) (lo : Z) : string := slice s lo (len s).

(** [s[i]] *)
Definition byte_at (s : string) (i : Z) : option ascii :=
  if i <? 0 then None else String.get (Z.to_nat i) s.

(** [bytealg.IndexByteString]: index of the first [c] in [s], or -1. *)
Fixpoint IndexByte (s : string) (c : ascii) : Z :=
  match s with
  | EmptyString => -1
  | String a s' =>
      if Ascii.eqb a c then 0
      else let r := IndexByte s' c in if r <? 0 then -1 else r + 1
  end.

(** [bytealg.LastIndexByteString]: index of the last [c] in [s], or -1. *)
Fixpoint LastIndexByte (s : string) (c : ascii) : Z :=
  match s with
  | EmptyString => -1
  | String a s' =>
      let r := LastIndexByte s' c in
      if 0 <=? r then r + 1 else if Ascii.eqb a c then 0 else -1
  end.

Module fmt.

Definition digit_char (d : Z) : ascii := ascii_of_nat (48 + Z.to_nat d).

(** The digit loop of [fmt]'s [fmtInteger] in base 10: digits are produced
    from the least significant one and written in front of [acc]. *)
Equations? fmt_digits (u : Z) (acc : string) : string by wf (Z.to_nat u) lt :=
  fmt_digits u acc with Z_lt_dec u 10 => {
    | left _ := String (digit_char u) acc;
    | right _ := fmt_digits (u / 10) (String (digit_char (u mod 10)) acc) }.
Proof.
  apply Z2Nat.inj_lt; [apply Z.div_pos; lia | lia | apply Z.div_lt; lia].
Qed.

(** The verb [%d] at an unsigned integer. *)
Definition d (u : Z) : string := fmt_digits u "".

End fmt.

Module strconv.

Definition maxUint64 : Z := 2 ^ 64 - 1.

(** [lower(c) = c | ('x' - 'X')] *)
Definition lower (b : Z) : Z := Z.lor b 32.

(** The [switch] that turns a byte into a digit value; [None] is the
    [default] branch (a syntax error). *)
Definition digit_of (c : ascii) : option Z :=
  let b := byte_val c in
  if (48 <=? b) && (b <=? 57) then Some (b - 48)
  else if (97 <=? lower b) && (lower b <=? 122) then Some (lower b - 97 + 10)
  else None.

(** The loop of [ParseUint] over the bytes of [s0]; [n] is the value
    read so far, a [uint64]. *)
Fixpoint parse_loop (s0 : string) (base cutoff maxVal : Z) (cs : string) (n : Z)
  : Z * option error :=
  match cs with
  | EmptyString => (n, None)
  | String c cs' =>
      match digit_of c with
      | None => (0, Some (NumError "ParseUint" s0 ErrSyntax))
      | Some d =>
          if base <=? d then (0, Some (NumError "ParseUint" s0 ErrSyntax))
          else if cutoff <=? n then (maxVal, Some (NumError "ParseUint" s0 ErrRange))
          else
            let n' := (n * base) mod 2 ^ 64 in
            let n1 := (n' + d) mod 2 ^ 64 in
            if (n1 <? n') || (maxVal <? n1)
            then (maxVal, Some (NumError "ParseUint" s0 ErrRange))
            else parse_loop s0 base cutoff maxVal cs' n1
      end
  end.

(** [strconv.ParseUint(s, base, bitSize)] for an explicit base between 2
    and 36.  Base 0 (the base read from a prefix, with underscores) is
    never passed by this package and is not modelled: it is answered
    like any other base outside 2..36. *)
Definition ParseUint (s : string) (base bitSize : Z) : Z * option error :=
  if String.eqb s "" then (0, Some (NumError "ParseUint" s ErrSyntax))
  else if negb ((2 <=? base) && (base <=? 36))
  then (0, Some (NumError "ParseUint" s ErrBase))
  else if (bitSize <? 0) || (64 <? bitSize)
  then (0, Some (NumError "ParseUint" s ErrBitSize))
  else
    let bitSize := if bitSize =? 0 then 64 else bitSize in
    let cutoff := maxUint64 / base + 1 in
    let maxVal := 2 ^ bitSize - 1 in
    parse_loop s base cutoff maxVal s 0.

End strconv.

(** The loop as [ParseUint(s, 10, 16)] runs it. *)
Abbreviation cutoff10 := (strconv.maxUint64 / 10 + 1).
Abbreviation parse16 s0 := (strconv.parse_loop s0 10 cutoff10 (2 ^ 16 - 1)).

Module net.

Definition missingPort : string := "missing port in address".
Definition tooManyColons : string := "too many colons in address".

(** [net.SplitHostPort]: the triple (host, port, err). *)
Definition SplitHostPort (hostport : string) : string * string * option error :=
  let addrErr (why : string) := ("", "", Some (AddrError why hostport)) in
  let i := LastIndexByte hostport ":" in
  if i <? 0 then addrErr missingPort
  else
    let bracketed :=
      match byte_at hostport 0 with
      | Some c => Ascii.eqb c "["
      | None => false
      end in
    let finish (host : string) (j k : Z) :=
      if 0 <=? IndexByte (slice_from hostport j) "["
      then addrErr "unexpected '[' in address"
      else if 0 <=? IndexByte (slice_from hostport k) "]"
      then addrErr "unexpected ']' in address"
      else (host, slice_from hostport (i + 1), None) in
    if bracketed then
      let end_ := IndexByte hostport "]" in
      if end_ <? 0 then addrErr "missing ']' in address"
      else if end_ + 1 =? len hostport then addrErr missingPort
      else if end_ + 1 =? i then finish (slice hostport 1 end_) 1 (end_ + 1)
      else
        match byte_at hostport (end_ + 1) with
        | Some c => if Ascii.eqb c ":" then addrErr tooManyColons
                    else addrErr missingPort
        | None => addrErr missingPort
        end
    else
      let host := slice hostport 0 i in
      if 0 <=? IndexByte host ":" then addrErr tooManyColons
      else finish host 0 0.

(** A bound listener; [laddr] is what [l.Addr().String()] returns. *)
Record Listener := { laddr : string }.

End net.

Module gostrings.

(** [strings.Split(s, sep)] for a separator of one byte. *)
Fixpoint Split (s : string) (sep : ascii) : list string :=
  match s with
  | EmptyString => [EmptyString]
  | String c s' =>
      let r := Split s' sep in
      if Ascii.eqb c sep then EmptyString :: r
      else match r with
           | h :: t => String c h :: t
           | [] => [String c EmptyString]
           end
  end.

End gostrings.

(** ** Address helpers *)

(** [makeAddr] converts uint16(x) to ":x". *)
Definition makeAddr (port : Z) : string := ":" +:+ fmt.d port.

(** [makePort] converts ":x" to uint16(x). *)
Definition makePort (addr : string) : Z * option error :=
  match net.SplitHostPort addr with
  | (_, _, Some err) => (0, Some err)
  | (_, portString, None) =>
      match strconv.ParseUint portString 10 16 with
      | (_, Some err) => (0, Some err)
      | (port64, None) => (port64 mod 2 ^ 16, None)
      end
  end.

(** ** Loggers and the HTTP server object *)

Module log.

Inductive writer := Stdout | Stderr | Writer (id : positive).

(** A [*log.Logger]: the writer, the line prefix and the flags it was
    made with. *)
Record Logger := New { out : writer; prefix : string; flag : Z }.

End log.

Module http.

(** The two handlers [New] installs; their bodies are closures over the
    server defined in other files of the package. *)
Inductive handler := jsHandler | webSocketHandler.

(** [http.NewServeMux] with its [HandleFunc] registrations. *)
Definition ServeMux := list (string * handler).

(** The fields of [http.Server] this package touches. *)
Record Server := {
  Addr : string;
  Handler : ServeMux;
  ErrorLog : option log.Logger }.

End http.

(** ** The data of [server.go] *)

Definition ptr := positive.
Definition chan := positive.
Definition socket := positive.
Bind Scope positive_scope with ptr chan socket.

(** [connSet], a Go map keyed by [*conn]: the set of its keys. *)
Abbreviation connSet := (gset positive).

Record Server := {
  name : string;
  host : string;
  port : Z;
  server : http.Server;
  conns : connSet;
  js : string;
  statusLog : option log.Logger;
  liveCSS : bool }.

(** The struct [conn] as [newConn] fills it.  [ws] is its field [conn], the
    web socket.  Its field [server] points back to the receiver of
    [newConn]; a [State] holds one server, so the field is not stored. *)
Record conn := {
  ws : socket;
  handshake : bool;
  reloadChan : chan;
  alertChan : chan;
  closeChan : chan }.

Definition chans (c : conn) : list chan := [reloadChan c; alertChan c; closeChan c].

(** What a method does besides updating the state, in program order. *)
Inductive event :=
| EvPrintln (l : log.Logger) (args : list string)  (* l.Println(args...) *)
| EvAdd (c : ptr)                                  (* s.conns.add(c) *)
| EvRemove (c : ptr)                               (* s.conns.remove(c) *)
| EvGo (c : ptr)                                   (* go c.start() *)
| EvSend (ch : chan) (v : string)                  (* ch <- v *)
| EvServe (l : net.Listener).                      (* s.server.Serve(l) *)

Record State := {
  srv : Server;             (* the object behind the receiver [s] *)
  heap : gmap ptr conn;     (* the [conn] objects allocated so far *)
  next_chan : chan;         (* the next channel [make] returns *)
  trace : list event }.

(** ** The monad of effectful methods: state, and [None] for a run-time panic *)

Definition M (A : Type) : Type := State → option (A * State).

#[global] Instance M_ret : MRet M := λ A a st, Some (a, st).
#[global] Instance M_bind : MBind M := λ A B f m st,
  match m st with
  | Some (a, st') => f a st'
  | None => None
  end.

Definition panic {A} : M A := λ _, None.

Definition get_srv : M Server := λ st, Some (srv st, st).

Definition put_srv (s : Server) : M unit := λ st,
  Some ((), {| srv := s; heap := heap st; next_chan := next_chan st; trace := trace st |}).

Definition emit (e : event) : M unit := λ st,
  Some ((), {| srv := srv st; heap := heap st; next_chan := next_chan st;
               trace := trace st ++ [e] |}).

(** [*c]: reading through a pointer that holds no object panics. *)
Definition deref (c : ptr) : M conn := λ st,
  match heap st !! c with
  | Some o => Some (o, st)
  | None => None
  end.

(** [&conn{...}]: a new object at an address not in use. *)
Definition alloc (o : conn) : M ptr := λ st,
  let p := fresh (dom (heap st)) in
  Some (p, {| srv := srv st; heap := <[p := o]> (heap st);
              next_chan := next_chan st; trace := trace st |}).

(** [make(chan T)]: a channel distinct from every one made before. *)
Definition make_chan : M chan := λ st,
  Some (next_chan st, {| srv := srv st; heap := heap st;
                         next_chan := Pos.succ (next_chan st); trace := trace st |}).

(** [ch <- v] *)
Definition chan_send (ch : chan) (v : string) : M unit := emit (EvSend ch v).

(** [for x := range l { body }] over the elements in the order of [l]. *)
Fixpoint for_range {A} (l : list A) (body : A → M unit) : M unit :=
  match l with
  | [] => mret ()
  | x :: l' => body x;; for_range l' body
  end.

(** The keys a [range] over the map visits.  Go leaves the order open; the
    model fixes the order of [elements]. *)
Definition range (cs : connSet) : list ptr := elements cs.

(** [l.Println(args...)] *)
Definition Println (l : log.Logger) (args : list string) : M unit :=
  emit (EvPrintln l args).

(** ** Server configuration: getters and setters *)

Definition Name (s : Server) : string := name s.
Definition Host (s : Server) : string := host s.
Definition Port (s : Server) : Z := port s.
Definition LiveCSS (s : Server) : bool := liveCSS s.
Definition StatusLog (s : Server) : option log.Logger := statusLog s.
Definition ErrorLog (s : Server) : option log.Logger := http.ErrorLog (server s).

(** [fmt.Sprintf("%s:%d", s.Host(), s.Port())] *)
Definition Addr (s : Server) : string := Host s +:+ ":" +:+ fmt.d (Port s).

Definition SetLiveCSS (s : Server) (n : bool) : Server :=
  {| name := name s; host := host s; port := port s; server := server s;
     conns := conns s; js := js s; statusLog := statusLog s; liveCSS := n |}.

Definition SetStatusLog (s : Server) (l : option log.Logger) : Server :=
  {| name := name s; host := host s; port := port s; server := server s;
     conns := conns s; js := js s; statusLog := l; liveCSS := liveCSS s |}.

Definition SetErrorLog (s : Server) (l : option log.Logger) : Server :=
  {| name := name s; host := host s; port := port s;
     server := {| http.Addr := http.Addr (server s);
                  http.Handler := http.Handler (server s);
                  http.ErrorLog := l |};
     conns := conns s; js := js s; statusLog := statusLog s; liveCSS := liveCSS s |}.

(** ** Construction *)

(** [New]: the pair (server, error); [None] in the first place is a nil
    [*Server], in the second a nil error. *)
Definition New (name host : string) (port : Z) : option Server * option error :=
  (* the mux is held by pointer: the two routes registered after the server
     is built are routes of its handler *)
  let router : http.ServeMux := [] in
  let logPrefix := "[" +:+ name +:+ "] " in
  let router := router ++ [("/livereload.js"%string, http.jsHandler)] in
  let router := router ++ [("/livereload"%string, http.webSocketHandler)] in
  let s :=
    {| name := name; host := host; port := port;
       server := {| http.Addr := ""; http.Handler := router;
                    http.ErrorLog := Some (log.New log.Stderr logPrefix 0) |};
       conns := ∅;
       js := "";
       statusLog := Some (log.New log.Stdout logPrefix 0);
       liveCSS := true |} in
  (Some s, None).

(** The state right after construction: no connection object, no channel,
    nothing done yet. *)
Definition init_state (s : Server) : State :=
  {| srv := s; heap := ∅; next_chan := 1%positive; trace := [] |}.

(** ** Logging *)

Definition logStatus (msg : list string) : M unit :=
  s ← get_srv;
  match statusLog s with
  | Some l => Println l msg
  | None => mret ()
  end.

Definition logError (msg : list string) : M unit :=
  s ← get_srv;
  match http.ErrorLog (server s) with
  | Some l => Println l msg
  | None => mret ()
  end.

(** ** Broadcast *)

(** [Reload] sends a reload message to the client. *)
Definition Reload (file : string) : M unit :=
  logStatus ["requesting reload: " +:+ file];;
  s ← get_srv;
  for_range (range (conns s)) (λ conn, c ← deref conn; chan_send (reloadChan c) file).

(** [Alert] sends an alert message to the client. *)
Definition Alert (msg : string) : M unit :=
  logStatus ["requesting alert: " +:+ msg];;
  s ← get_srv;
  for_range (range (conns s)) (λ conn, c ← deref conn; chan_send (alertChan c) msg).

(** ** The connection registry *)

Definition set_conns (s : Server) (cs : connSet) : Server :=
  {| name := name s; host := host s; port := port s; server := server s;
     conns := cs; js := js s; statusLog := statusLog s; liveCSS := liveCSS s |}.

(** Modelled from the spec: [connSet.add] (the file that declares [connSet]
    and its methods is not among the sources).  "Add(connection): inserts
    unconditionally". *)
Definition connSet_add (c : ptr) : M unit :=
  s ← get_srv;
  put_srv (set_conns s ({[c]} ∪ conns s));;
  emit (EvAdd c).

(** Modelled from the spec: [connSet.remove] (also not among the sources).
    "Remove(connection): deletes if present [...] removing an absent
    connection is a no-op". *)
Definition connSet_remove (c : ptr) : M unit :=
  s ← get_srv;
  put_srv (set_conns s (conns s ∖ {[c]}));;
  emit (EvRemove c).

(** ** Accepting a connection *)

Definition newConn (wsConn : socket) : M unit :=
  r ← make_chan;
  a ← make_chan;
  cl ← make_chan;
  c ← alloc {| ws := wsConn; handshake := false;
               reloadChan := r; alertChan := a; closeChan := cl |};
  connSet_add c;;
  emit (EvGo c).

(** The object [newConn] builds in state [st]. *)
Definition new_conn_of (wsConn : socket) (st : State) : conn :=
  {| ws := wsConn; handshake := false;
     reloadChan := next_chan st;
     alertChan := Pos.succ (next_chan st);
     closeChan := Pos.succ (Pos.succ (next_chan st)) |}.

(** ** Serving *)

Definition set_host_port (s : Server) (h : string) (p : Z) : Server :=
  {| name := name s; host := h; port := p; server := server s;
     conns := conns s; js := js s; statusLog := statusLog s; liveCSS := liveCSS s |}.

Definition set_js (s : Server) (j : string) : Server :=
  {| name := name s; host := host s; port := port s; server := server s;
     conns := conns s; js := j; statusLog := statusLog s; liveCSS := liveCSS s |}.

Section Serving.

(** What the operating system answers to [net.Listen(network, address)]. *)
Variable net_Listen : string → string → net.Listener + error.

(** The error [Serve] ends with, once it stops serving. *)
Variable http_Serve : http.Server → net.Listener → error.

(** [fmt.Sprintf(js, host, port)]: the format constant [js] is declared in
    another file of the package. *)
Variable Sprintf_js : string → Z → string.

Definition ListenAndServe : M (option error) :=
  s ← get_srv;
  match net_Listen "tcp" (Addr s) with
  | inr err => mret (Some err)
  | inl l =>
      (if port s =? 0 then
         let addr := gostrings.Split (net.laddr l) ":" in
         match addr !! 1%nat with
         | None => panic                     (* addr[1]: index out of range *)
         | Some a1 =>
             let '(port64, _) := strconv.ParseUint a1 10 16 in
             match addr !! 0%nat with
             | None => panic
             | Some a0 => put_srv (set_host_port s a0 (port64 mod 2 ^ 16))
             end
         end
       else mret ());;
      s ← get_srv;
      put_srv (set_js s (Sprintf_js (host s) (port s)));;
      s ← get_srv;
      logStatus ["listening on " +:+ http.Addr (server s)];;
      emit (EvServe l);;
      mret (Some (http_Serve (server s) l))
  end.

End Serving.

(** ** Reading a trace *)

(** The values sent on channel [ch], in order. *)
Definition sends_on (ch : chan) (evs : list event) : list string :=
  omap (λ e, match e with
             | EvSend ch' v => if decide (ch' = ch) then Some v else None
             | _ => None
             end) evs.

Definition is_send (e : event) : bool :=
  match e with EvSend _ _ => true | _ => false end.

Definition is_println (e : event) : bool :=
  match e with EvPrintln _ _ => true | _ => false end.

(** The calls an application makes to broadcast. *)
Inductive call := CallReload (file : string) | CallAlert (msg : string).

Definition run_call (c : call) : M unit :=
  match c with
  | CallReload file => Reload file
  | CallAlert msg => Alert msg
  end.

Definition run_calls (cs : list call) : M unit := for_range cs run_call.

(** ** Well-formed states

    What Go's memory model gives for free: every registered pointer holds
    an object, and the channels of the objects are pairwise distinct and
    were all made before the next one. *)
Definition wf (st : State) : Prop :=
  conns (srv st) ⊆ dom (heap st)
  ∧ map_Forall (λ _ o, NoDup (chans o)
                       ∧ Forall (λ ch, (ch < next_chan st)%positive) (chans o)) (heap st)
  ∧ map_Forall (λ p o, map_Forall (λ q o', p = q ∨ Forall (λ ch, ch ∉ chans o') (chans o))
                                  (heap st)) (heap st).

#[global] Instance wf_dec st : Decision (wf st).
Proof. unfold wf. apply _. Defined.

(** ** Configuration fields and the setters of the server *)

Inductive field := FName | FHost | FPort | FLiveCSS | FStatusLog | FErrorLog.

Definition field_type (f : field) : Type :=
  match f with
  | FName | FHost => string
  | FPort => Z
  | FLiveCSS => bool
  | FStatusLog | FErrorLog => option log.Logger
  end.

Definition getter (f : field) : Server → field_type f :=
  match f with
  | FName => Name
  | FHost => Host
  | FPort => Port
  | FLiveCSS => LiveCSS
  | FStatusLog => StatusLog
  | FErrorLog => ErrorLog
  end.

(** A call of one of the setters [server.go] declares. *)
Inductive setter_call :=
| CallSetLiveCSS (n : bool)
| CallSetStatusLog (l : option log.Logger)
| CallSetErrorLog (l : option log.Logger).

Definition run_setter (c : setter_call) (s : Server) : Server :=
  match c with
  | CallSetLiveCSS n => SetLiveCSS s n
  | CallSetStatusLog l => SetStatusLog s l
  | CallSetErrorLog l => SetErrorLog s l
  end.

(** The field [f] has a setter: some setter call makes its getter return [v],
    whatever the server was before. *)
Definition settable (f : field) : Prop :=
  ∀ v : field_type f, ∃ c : setter_call, ∀ s : Server, getter f (run_setter c s) = v.

(** ** The connection state machine *)

Module Connection.

(** Modelled from the spec: the states of a Connection ([conn.start] and
    its loops are in a file that is not among the sources; so is everything
    else in this module).  "State: one of Connecting, AwaitingHandshake,
    Live, Closing, Closed". *)
Inductive phase := Connecting | AwaitingHandshake | Live | Closing | Closed.

(** Modelled from the spec: a decoded client frame.  "Recognized incoming
    commands: hello (carries a list of protocol-version URIs the client
    supports)". *)
Inductive command := Hello (protocols : list string) | Other (cmd : string).

(** Modelled from the spec: a frame the server writes to the socket, one
    of the three server-to-client commands of the wire protocol. *)
Inductive frame :=
| ServerHello (protocols : list string) (serverName : string)
| ReloadFrame (path : string) (liveCSS : bool)
| AlertFrame (message : string).

Definition is_command_frame (f : frame) : bool :=
  match f with
  | ReloadFrame _ _ | AlertFrame _ => true
  | ServerHello _ _ => false
  end.

(** Modelled from the spec: what a connection can be offered, the things
    its loop waits for.  [wrote] tells whether the socket write that answers
    a queued command succeeded ("a write failure [...] transitions to
    Closing"). *)
Inductive input :=
| Enter                                        (* entry into Connecting *)
| Inbound (c : command)                        (* a frame that decodes *)
| Malformed                                    (* a frame that does not *)
| SocketError                                  (* read error or close *)
| QueuedReload (file : string) (wrote : bool)  (* from the reload queue *)
| QueuedAlert (msg : string) (wrote : bool)    (* from the alert queue *)
| CloseSignal                                  (* from the close queue *)
| Release.                                     (* the work of Closing *)

(** Modelled from the spec: a Connection, with what it has written. *)
Record cstate := {
  at_phase : phase;
  handshakeComplete : bool;
  written : list frame;     (* the frames written to the socket, in order *)
  registered : bool }.      (* membership in the registry *)

(** Modelled from the spec: "created when an upgrade request succeeds":
    Connecting, registered by the facade, handshake not done, nothing
    written. *)
Definition initial : cstate :=
  {| at_phase := Connecting; handshakeComplete := false;
     written := []; registered := true |}.

Definition goto (p : phase) (c : cstate) : cstate :=
  {| at_phase := p; handshakeComplete := handshakeComplete c;
     written := written c; registered := registered c |}.

Definition write (f : frame) (c : cstate) : cstate :=
  {| at_phase := at_phase c; handshakeComplete := handshakeComplete c;
     written := written c ++ [f]; registered := registered c |}.

Section Machine.

(** The protocol version the server supports, and the configuration a
    connection reads when it builds a message. *)
Variable supported : string.
Variable serverName : string.
Variable liveCSS : bool.

(** Modelled from the spec: one transition of the state machine; [None]
    when the state does not take the input (a queue is only waited on in
    Live; Closed takes nothing but drops what a caller still tries to
    enqueue). *)
Definition step (c : cstate) (i : input) : option cstate :=
  match at_phase c, i with
  | Connecting, Enter => Some (goto AwaitingHandshake c)
  | AwaitingHandshake, Inbound (Hello ps) =>
      if bool_decide (supported ∈ ps)
      then
        let c := write (ServerHello [supported] serverName) c in
        Some {| at_phase := Live; handshakeComplete := true;
                written := written c; registered := registered c |}
      else Some (goto Closing c)
  | AwaitingHandshake, Inbound (Other _) => Some (goto Closing c)
  | AwaitingHandshake, Malformed => Some (goto Closing c)
  | AwaitingHandshake, SocketError => Some (goto Closing c)
  | Live, Inbound _ => Some c
  | Live, Malformed => Some (goto Closing c)
  | Live, SocketError => Some (goto Closing c)
  | Live, QueuedReload file wrote =>
      if wrote then Some (write (ReloadFrame file liveCSS) c)
      else Some (goto Closing c)
  | Live, QueuedAlert msg wrote =>
      if wrote then Some (write (AlertFrame msg) c)
      else Some (goto Closing c)
  | Live, CloseSignal => Some (goto Closing c)
  | Closing, Release =>
      Some {| at_phase := Closed; handshakeComplete := handshakeComplete c;
              written := written c; registered := false |}
  | Closed, QueuedReload _ _ => Some c
  | Closed, QueuedAlert _ _ => Some c
  | _, _ => None
  end.

(** Modelled from the spec: a run, the inputs taken one after the other;
    an input the state does not take is left waiting and the state stays as
    it is. *)
Fixpoint run (c : cstate) (ins : list input) : cstate :=
  match ins with
  | [] => c
  | i :: ins' =>
      match step c i with
      | Some c' => run c' ins'
      | None => run c ins'
      end
  end.

(** What holds of a connection at every moment. *)
Definition gating_inv (c : cstate) : Prop :=
  (handshakeComplete c = false → written c = [] ∧ at_phase c ≠ Live)
  ∧ (handshakeComplete c = true →
       at_phase c ≠ Connecting ∧ at_phase c ≠ AwaitingHandshake
       ∧ ∃ fs, written c = ServerHello [supported] serverName :: fs
               ∧ Forall (λ f, is_command_frame f = true) fs).

End Machine.

(** No reload or alert frame comes before the server's hello. *)
Fixpoint gated (seen_hello : bool) (fs : list frame) : bool :=
  match fs with
  | [] => true
  | ServerHello _ _ :: fs' => gated true fs'
  | _ :: fs' => seen_hello && gated seen_hello fs'
  end.

End Connection.

(** Modelled from the spec: the work of Closing that concerns the facade
    (the code that closes a connection is not among the sources).
    "Closing: [...] deregisters from the Connection Registry". *)
Definition close_conn (c : ptr) : M unit := connSet_remove c.

(** ** Decimal strings, as a reader of the address helpers sees them *)

Definition is_digit (c : ascii) : bool := (48 <=? byte_val c) && (byte_val c <=? 57).

Fixpoint string_all (P : ascii → bool) (s : string) : bool :=
  match s with
  | EmptyString => true
  | String c s' => P c && string_all P s'
  end.

(** The number a string of decimal digits denotes, continuing from [n]. *)
Fixpoint dec_val (s : string) (n : Z) : Z :=
  match s with
  | EmptyString => n
  | String c s' => dec_val s' (10 * n + (byte_val c - 48))
  end.

(** A decimal integer that fits in 16 bits. *)
Definition decimal_u16 (s : string) : Prop :=
  s ≠ EmptyString ∧ string_all is_digit s = true ∧ dec_val s 0 ≤ 65535.

(** What follows the last [c] of [s]; [None] when [s] has no [c]. *)
Fixpoint after_last (c : ascii) (s : string) : option string :=
  match s with
  | EmptyString => None
  | String a s' =>
      match after_last c s' with
      | Some p => Some p
      | None => if Ascii.eqb a c then Some s' else None
      end
  end.

(** The port part of an address: what follows its last colon. *)
Definition port_part (addr : string) : option string := after_last ":" addr.

(** ** What a broadcast leaves in the trace *)

Definition add_events (st : State) (evs : list event) : State :=
  {| srv := srv st; heap := heap st; next_chan := next_chan st;
     trace := trace st ++ evs |}.

(** The line [logStatus] prints, if there is a status logger. *)
Definition status_events (s : Server) (msg : list string) : list event :=
  match statusLog s with
  | Some l => [EvPrintln l msg]
  | None => []
  end.

(** One send of [v] per pointer of [l], on the channel [sel] picks. *)
Definition send_events (h : gmap ptr conn) (sel : conn → chan) (v : string)
    (l : list ptr) : list event :=
  omap (λ p, (λ o, EvSend (sel o) v) <$> h !! p) l.

(** ** Example states *)

(** The server [New("LiveReload", "", 35729)] builds. *)
Definition ex_server : Server :=
  {| name := "LiveReload"; host := ""; port := 35729;
     server := {| http.Addr := "";
                  http.Handler := [("/livereload.js"%string, http.jsHandler);
                                   ("/livereload"%string, http.webSocketHandler)];
                  http.ErrorLog := Some (log.New log.Stderr "[LiveReload] " 0) |};
     conns := ∅; js := "";
     statusLog := Some (log.New log.Stdout "[LiveReload] " 0);
     liveCSS := true |}.

Definition ex_conn (w : socket) (r a c : chan) : conn :=
  {| ws := w; handshake := false; reloadChan := r; alertChan := a; closeChan := c |}.

(** Three connections were accepted; the third has left the registry. *)
Definition ex_state : State :=
  {| srv := set_conns ex_server {[1%positive; 2%positive]};
     heap := {[ 1%positive := ex_conn 11 1 2 3;
                2%positive := ex_conn 12 4 5 6;
                3%positive := ex_conn 13 7 8 9 ]};
     next_chan := 10%positive;
     trace := [] |}.

(** The same with both sinks set to nil. *)
Definition ex_state_quiet : State :=
  {| srv := SetErrorLog (SetStatusLog (srv ex_state) None) None;
     heap := heap ex_state; next_chan := next_chan ex_state; trace := [] |}.

(** ** Sequences of operations on a server *)

(** What an application and the accept path do to a server once it is
    built. *)
Inductive op :=
| OpNewConn (wsConn : socket)
| OpReload (file : string)
| OpAlert (msg : string)
| OpClose (c : ptr)
| OpSet (c : setter_call).

Definition run_op (o : op) : M unit :=
  match o with
  | OpNewConn wsConn => newConn wsConn
  | OpReload file => Reload file
  | OpAlert msg => Alert msg
  | OpClose c => close_conn c
  | OpSet c => s ← get_srv; put_srv (run_setter c s)
  end.

(** The state [ListenAndServe] is in when it hands the listener [l] to
    [Serve], coming from [st] with the server fields [s']. *)
Definition serving_state (Sprintf_js : string → Z → string) (st : State) (s' : Server)
    (l : net.Listener) : State :=
  add_events
    {| srv := set_js s' (Sprintf_js (host s') (port s'));
       heap := heap st; next_chan := next_chan st; trace := trace st |}
    (status_events s' ["listening on " +:+ http.Addr (server s')] ++ [EvServe l]).

(** The byte [c] does not occur in [s]. *)
Definition no_byte (c : ascii) (s : string) : Prop :=
  string_all (λ a, negb (Ascii.eqb a c)) s = true.

(** ** The package constants *)

Definition DefaultName : string := "LiveReload".
Definition DefaultHost : string := "".
Definition DefaultPort : Z := 35729.

(** ** Reading a sequence of broadcast calls *)

(** The files of the [Reload] calls, in call order. *)
Definition reload_files (cls : list call) : list string :=
  omap (λ c, match c with CallReload file => Some file | CallAlert _ => None end) cls.

(** The messages of the [Alert] calls, in call order. *)
Definition alert_msgs (cls : list call) : list string :=
  omap (λ c, match c with CallAlert msg => Some msg | CallReload _ => None end) cls.

(** The request a call passes to [logStatus]. *)
Definition request_line (c : call) : string :=
  match c with
  | CallReload file => "requesting reload: " +:+ file
  | CallAlert msg => "requesting alert: " +:+ msg
  end.

(** What the trace says was printed, in order. *)
Definition printed (evs : list event) : list (log.Logger * list string) :=
  omap (λ e, match e with EvPrintln l args => Some (l, args) | _ => None end) evs.

(** ** Reading the registry *)

(** The web sockets of the registered connections. *)
Definition registered_sockets (st : State) : list socket :=
  omap (λ p, ws <$> heap st !! p) (range (conns (srv st))).

(** The channels a list of events sends on. *)
Definition send_channels (evs : list event) : list chan :=
  omap (λ e, match e with EvSend ch _ => Some ch | _ => None end) evs.

(** ** Hosts *)

(** A host name or IPv4 literal: no colon and no bracket in it. *)
Definition plain_host (h : string) : Prop :=
  no_byte ":" h ∧ no_byte "[" h ∧ no_byte "]" h.

(** The first byte of [s] is [c]. *)
Definition starts_with (c : ascii) (s : string) : Prop :=
  ∃ t, s = String c t.

(** ** Reading what [ListenAndServe] did *)


(** ** Setter calls *)



(** * Proofs *)

(** ** Strings *)

Lemma substring_all (s : string) : String.substring 0 (String.length s) s = s.
Proof. induction s as [|a s IH]; simpl; [done | by rewrite IH]. Qed.

Lemma slice_from_0 (s : string) : slice_from s 0 = s.
Proof.
  unfold slice_from, slice, len. rewrite Z.sub_0_r, Nat2Z.id. apply substring_all.
Qed.

Lemma slice_from_succ (a : ascii) (s : string) (i : Z) :
  0 ≤ i → slice_from (String a s) (i + 1) = slice_from s i.
Proof.
  intros Hi. unfold slice_from, slice, len. simpl String.length.
  replace (Z.to_nat (i + 1)) with (S (Z.to_nat i)) by lia.
  simpl. f_equal. lia.
Qed.

Lemma IndexByte_range (s : string) (c : ascii) : -1 ≤ IndexByte s c.
Proof.
  induction s as [|a s IH]; simpl; [lia|].
  destruct (Ascii.eqb a c); [lia|]. destruct (Z.ltb_spec (IndexByte s c) 0); lia.
Qed.

Lemma LastIndexByte_range (s : string) (c : ascii) : -1 ≤ LastIndexByte s c.
Proof.
  induction s as [|a s IH]; simpl; [lia|].
  destruct (Z.leb_spec 0 (LastIndexByte s c)); [lia|].
  destruct (Ascii.eqb a c); lia.
Qed.

Lemma IndexByte_absent (P : ascii → bool) (s : string) (c : ascii) :
  P c = false → string_all P s = true → IndexByte s c = -1.
Proof.
  intros Hc. induction s as [|a s IH]; simpl; [done|].
  intros [Ha Hs]%andb_prop. rewrite (IH Hs).
  destruct (Ascii.eqb_spec a c) as [->|_]; [congruence | done].
Qed.

Lemma LastIndexByte_absent (P : ascii → bool) (s : string) (c : ascii) :
  P c = false → string_all P s = true → LastIndexByte s c = -1.
Proof.
  intros Hc. induction s as [|a s IH]; simpl; [done|].
  intros [Ha Hs]%andb_prop. rewrite (IH Hs). simpl.
  destruct (Ascii.eqb_spec a c) as [->|_]; [congruence | done].
Qed.

Lemma after_last_None (c : ascii) (s : string) :
  after_last c s = None ↔ LastIndexByte s c = -1.
Proof.
  induction s as [|a s IH]; simpl; [done|].
  pose proof (LastIndexByte_range s c) as Hr.
  destruct (after_last c s) as [p|].
  - assert (LastIndexByte s c ≠ -1) by (intros E; apply IH in E; done).
    destruct (Z.leb_spec 0 (LastIndexByte s c)); [split; [done | lia] | lia].
  - assert (LastIndexByte s c = -1) as -> by by apply IH.
    simpl. by destruct (Ascii.eqb a c).
Qed.

Lemma after_last_slice (c : ascii) (s : string) :
  0 ≤ LastIndexByte s c →
  after_last c s = Some (slice_from s (LastIndexByte s c + 1)).
Proof.
  induction s as [|a s IH]; simpl; [lia|].
  pose proof (LastIndexByte_range s c) as Hr.
  destruct (Z.leb_spec 0 (LastIndexByte s c)) as [Hge|Hlt].
  - intros _. rewrite (IH Hge). by rewrite slice_from_succ by lia.
  - assert (after_last c s = None) as -> by (apply after_last_None; lia).
    destruct (Ascii.eqb a c); [intros _ | lia].
    change (0 + 1) with (0 + 1). by rewrite (slice_from_succ a s 0), slice_from_0.
Qed.

(** ** Digits *)

#[local] Arguments fmt.digit_char : simpl never.
#[local] Arguments byte_val : simpl never.
#[local] Arguments is_digit : simpl never.
#[local] Arguments strconv.digit_of : simpl never.

Lemma byte_val_digit_char (d : Z) : 0 ≤ d < 10 → byte_val (fmt.digit_char d) = 48 + d.
Proof.
  intros Hd. unfold byte_val, fmt.digit_char.
  rewrite nat_ascii_embedding by lia. lia.
Qed.

Lemma is_digit_digit_char (d : Z) : 0 ≤ d < 10 → is_digit (fmt.digit_char d) = true.
Proof.
  intros Hd. unfold is_digit. rewrite byte_val_digit_char by done.
  apply andb_true_intro; split; lia.
Qed.

Lemma byte_val_range (c : ascii) : 0 ≤ byte_val c < 256.
Proof. unfold byte_val. pose proof (nat_ascii_bounded c). lia. Qed.

(** Setting bit 5 of a byte adds 32 or nothing. *)
Lemma lower_cases (b : Z) : 0 ≤ b < 256 → strconv.lower b = b ∨ strconv.lower b = b + 32.
Proof.
  intros Hb. unfold strconv.lower.
  assert (∀ n : nat, (n < 256)%nat →
            Z.lor (Z.of_nat n) 32 = Z.of_nat n ∨ Z.lor (Z.of_nat n) 32 = Z.of_nat n + 32) as H.
  { intros n Hn. do 256 (destruct n as [|n]; [vm_compute; tauto|]). lia. }
  specialize (H (Z.to_nat b)). rewrite Z2Nat.id in H by lia. apply H. lia.
Qed.

(** A digit value below ten comes from one of the bytes '0'..'9'. *)
Lemma digit_of_decimal (c : ascii) (d : Z) :
  strconv.digit_of c = Some d → d < 10 → is_digit c = true ∧ d = byte_val c - 48.
Proof.
  unfold strconv.digit_of, is_digit. intros H Hd.
  destruct ((48 <=? byte_val c) && (byte_val c <=? 57)) eqn:E.
  - by simplify_eq.
  - destruct ((97 <=? strconv.lower (byte_val c)) && (strconv.lower (byte_val c) <=? 122)) eqn:E2;
      [|done].
    simplify_eq. apply andb_prop in E2 as [E2 _]. lia.
Qed.

Lemma digit_of_is_digit (c : ascii) :
  is_digit c = true → strconv.digit_of c = Some (byte_val c - 48).
Proof. unfold strconv.digit_of, is_digit. by intros ->. Qed.

Lemma digit_of_digit_char (d : Z) : 0 ≤ d < 10 → strconv.digit_of (fmt.digit_char d) = Some d.
Proof.
  intros Hd. rewrite digit_of_is_digit by by apply is_digit_digit_char.
  rewrite byte_val_digit_char by done. f_equal. lia.
Qed.

#[local] Opaque fmt.digit_char byte_val.

(** [%d] writes decimal digits only. *)
Lemma fmt_digits_all_digits (u : Z) (acc : string) :
  0 ≤ u → string_all is_digit acc = true → string_all is_digit (fmt.fmt_digits u acc) = true.
Proof.
  funelim (fmt.fmt_digits u acc); intros Hu Hacc.
  - simpl. rewrite is_digit_digit_char by lia. done.
  - apply H; [apply Z.div_pos; lia|].
    simpl. rewrite is_digit_digit_char; [done|]. apply Z.mod_pos_bound. lia.
Qed.

Lemma fmt_digits_nonempty (u : Z) (acc : string) : fmt.fmt_digits u acc ≠ EmptyString.
Proof.
  funelim (fmt.fmt_digits u acc); [done|]. apply H.
Qed.

(** ** [ParseUint] in base 10 at 16 bits *)

Lemma parse16_step (s0 : string) (c : ascii) (cs : string) (n : Z) :
  is_digit c = true → 0 ≤ n → 10 * n + (byte_val c - 48) ≤ 65535 →
  parse16 s0 (String c cs) n = parse16 s0 cs (10 * n + (byte_val c - 48)).
Proof.
  intros Hc Hn Hle. simpl. rewrite (digit_of_is_digit c Hc).
  unfold is_digit in Hc. apply andb_prop in Hc as [H1 H2].
  change (strconv.maxUint64 `div` 10 + 1) with 1844674407370955162.
  change (2 ^ 16 - 1) with 65535. change (2 ^ 64) with 18446744073709551616.
  destruct (Z.leb_spec 10 (byte_val c - 48)); [lia|].
  destruct (Z.leb_spec 1844674407370955162 n); [lia|].
  rewrite (Z.mod_small (n * 10)) by lia.
  rewrite (Z.mod_small (n * 10 + _)) by lia.
  destruct (Z.ltb_spec (n * 10 + (byte_val c - 48)) (n * 10)); [lia|].
  destruct (Z.ltb_spec 65535 (n * 10 + (byte_val c - 48))); [lia|].
  simpl. f_equal. lia.
Qed.

(** Reading back what [%d] wrote. *)
Lemma parse16_fmt_digits (s0 : string) (u : Z) (acc : string) :
  0 ≤ u ≤ 65535 → parse16 s0 (fmt.fmt_digits u acc) 0 = parse16 s0 acc u.
Proof.
  funelim (fmt.fmt_digits u acc); intros Hu.
  - rewrite parse16_step.
    + f_equal. rewrite byte_val_digit_char by lia. lia.
    + apply is_digit_digit_char. lia.
    + done.
    + rewrite byte_val_digit_char by lia. lia.
  - assert (0 ≤ u `div` 10) by (apply Z.div_pos; lia).
    assert (0 ≤ u `mod` 10 < 10) by (apply Z.mod_pos_bound; lia).
    pose proof (Z.div_mod u 10 ltac:(lia)) as Hdm.
    rewrite H by lia.
    rewrite parse16_step.
    + f_equal. rewrite byte_val_digit_char by lia. lia.
    + by apply is_digit_digit_char.
    + done.
    + rewrite byte_val_digit_char by lia. lia.
Qed.

(** A successful parse read decimal digits, and their value fits. *)
Lemma parse16_ok (s0 cs : string) (n v : Z) :
  0 ≤ n ≤ 65535 → parse16 s0 cs n = (v, None) →
  string_all is_digit cs = true ∧ v = dec_val cs n ∧ 0 ≤ v ≤ 65535.
Proof.
  revert n. induction cs as [|c cs IH]; intros n Hn; simpl.
  - intros [= <-]. done.
  - destruct (strconv.digit_of c) as [d|] eqn:Hd; [|done].
    change (strconv.maxUint64 `div` 10 + 1) with 1844674407370955162.
    change (2 ^ 16 - 1) with 65535. change (2 ^ 64) with 18446744073709551616.
    destruct (Z.leb_spec 10 d); [done|].
    destruct (Z.leb_spec 1844674407370955162 n); [done|].
    destruct (digit_of_decimal c d Hd ltac:(lia)) as [Hc ->].
    pose proof (byte_val_range c). pose proof Hc as Hc'. unfold is_digit in Hc'.
    apply andb_prop in Hc' as [Hc1 Hc2].
    rewrite (Z.mod_small (n * 10)) by lia.
    rewrite (Z.mod_small (n * 10 + _)) by lia.
    destruct (Z.ltb_spec (n * 10 + (byte_val c - 48)) (n * 10)); [lia|].
    destruct (Z.ltb_spec 65535 (n * 10 + (byte_val c - 48))); [done|].
    simpl. intros Hp. apply IH in Hp as (Hcs & -> & Hv); [|lia].
    split_and!; [by rewrite Hc, Hcs|f_equal; lia|lia..].
Qed.

Lemma ParseUint16_ok (s : string) (v : Z) :
  strconv.ParseUint s 10 16 = (v, None) → decimal_u16 s ∧ v = dec_val s 0.
Proof.
  unfold strconv.ParseUint. destruct (String.eqb_spec s "") as [->|Hne]; [done|].
  simpl. intros Hp. apply parse16_ok in Hp as (? & ? & ?); [|lia].
  unfold decimal_u16. split_and!; [done..|lia|done].
Qed.

Lemma ParseUint16_fmt (u : Z) : 0 ≤ u ≤ 65535 → strconv.ParseUint (fmt.d u) 10 16 = (u, None).
Proof.
  intros Hu. unfold strconv.ParseUint, fmt.d.
  destruct (String.eqb_spec (fmt.fmt_digits u "") "") as [E|_].
  - by apply fmt_digits_nonempty in E.
  - simpl. by rewrite parse16_fmt_digits.
Qed.

(** ** [SplitHostPort] *)

Lemma SplitHostPort_no_colon (addr : string) :
  port_part addr = None →
  net.SplitHostPort addr = (EmptyString, EmptyString, Some (AddrError net.missingPort addr)).
Proof.
  intros H%after_last_None. unfold net.SplitHostPort. by rewrite H.
Qed.

(** On success the port is what follows the last colon. *)
Lemma SplitHostPort_port (addr h p : string) :
  net.SplitHostPort addr = (h, p, None) → port_part addr = Some p.
Proof.
  unfold net.SplitHostPort, port_part.
  destruct (Z.ltb_spec (LastIndexByte addr ":") 0) as [|Hi]; [done|].
  intros H. rewrite (after_last_slice _ _ Hi). f_equal.
  repeat case_match; by simplify_eq.
Qed.

Lemma SplitHostPort_colon_digits (ds : string) :
  string_all is_digit ds = true →
  net.SplitHostPort (String ":" ds) = (EmptyString, ds, None).
Proof.
  intros Hds. unfold net.SplitHostPort.
  assert (LastIndexByte (String ":" ds) ":" = 0) as ->.
  { simpl. by rewrite (LastIndexByte_absent is_digit). }
  assert (byte_at (String ":" ds) 0 = Some ":"%char) as -> by done.
  assert (slice (String ":" ds) 0 0 = EmptyString) as -> by done.
  rewrite slice_from_0.
  assert (IndexByte (String ":" ds) "[" = -1) as ->.
  { simpl. by rewrite (IndexByte_absent is_digit). }
  assert (IndexByte (String ":" ds) "]" = -1) as ->.
  { simpl. by rewrite (IndexByte_absent is_digit). }
  simpl. by rewrite (slice_from_succ ":" ds 0), slice_from_0.
Qed.

(** ** The address helpers *)

Example makePort_ex1 : makePort ":35729" = (35729, None).
Proof. reflexivity. Qed.
Example makePort_ex2 : makePort (makeAddr 0) = (0, None).
Proof. reflexivity. Qed.
Example makePort_ex3 : makePort "localhost" = (0, Some (AddrError net.missingPort "localhost")).
Proof. reflexivity. Qed.
Example makePort_ex4 : makePort ":65536" = (0, Some (NumError "ParseUint" "65536" ErrRange)).
Proof. reflexivity. Qed.
Example makePort_ex5 : makePort "[::1]:80" = (80, None).
Proof. reflexivity. Qed.
Example makePort_ex6 : makePort "a:b:80" = (0, Some (AddrError net.tooManyColons "a:b:80")).
Proof. reflexivity. Qed.
Example Split_ex : gostrings.Split "127.0.0.1:35729" ":" = ["127.0.0.1"; "35729"]%string.
Proof. reflexivity. Qed.

Lemma makePort_error (addr : string) (e : error) (v : Z) :
  makePort addr = (v, Some e) → v = 0.
Proof.
  unfold makePort. repeat case_match; by intros [= <- _].
Qed.

(** C10. [makePort] undoes [makeAddr] on every 16-bit port, and it returns
    port 0 with a non-nil error when the address has no colon or when what
    follows its last colon is not a decimal integer that fits in 16 bits. *)
Theorem makePort_makeAddr (p : Z) (addr : string) :
  (0 ≤ p < 2 ^ 16 → makePort (makeAddr p) = (p, None))
  ∧ (port_part addr = None ∨ (∃ ps, port_part addr = Some ps ∧ ¬ decimal_u16 ps) →
     ∃ e, makePort addr = (0, Some e)).
Proof.
  split.
  - intros Hp. unfold makePort, makeAddr.
    change (":" +:+ fmt.d p) with (String ":" (fmt.d p)).
    rewrite SplitHostPort_colon_digits by (apply fmt_digits_all_digits; [lia|done]).
    rewrite ParseUint16_fmt by lia. f_equal. apply Z.mod_small. lia.
  - intros H. destruct (makePort addr) as [v [e|]] eqn:Hm.
    + exists e. by rewrite (makePort_error _ _ _ Hm).
    + exfalso. unfold makePort in Hm.
      destruct (net.SplitHostPort addr) as [[h ps] [e|]] eqn:Hs; [done|].
      apply SplitHostPort_port in Hs.
      destruct (strconv.ParseUint ps 10 16) as [v' [e|]] eqn:Hu; [done|].
      apply ParseUint16_ok in Hu as [Hdec _].
      destruct H as [H|(ps' & H & Hn)]; congruence.
Qed.

Lemma makePort_makeAddr_witness :
  makePort (makeAddr 35729) = (35729, None)
  ∧ (∃ e, makePort "localhost" = (0, Some e))
  ∧ (∃ e, makePort ":65536" = (0, Some e)).
Proof.
  split_and!.
  - apply (makePort_makeAddr 35729 ""). lia.
  - apply (makePort_makeAddr 0 "localhost"). left. reflexivity.
  - apply (makePort_makeAddr 0 ":65536"). right. exists "65536"%string.
    split; [reflexivity|]. intros (_ & _ & H). vm_compute in H. by apply H.
Defined.

(** ** The monad and the trace *)

Lemma bind_run {A B} (m : M A) (f : A → M B) (st : State) :
  (m ≫= f) st = match m st with Some (a, st') => f a st' | None => None end.
Proof. reflexivity. Qed.

Lemma add_events_nil (st : State) : add_events st [] = st.
Proof. destruct st. unfold add_events. simpl. by rewrite app_nil_r. Qed.

Lemma add_events_app (st : State) (e1 e2 : list event) :
  add_events (add_events st e1) e2 = add_events st (e1 ++ e2).
Proof. unfold add_events. simpl. by rewrite app_assoc. Qed.

Lemma emit_run (e : event) (st : State) : emit e st = Some ((), add_events st [e]).
Proof. reflexivity. Qed.

Lemma wf_add_events (st : State) (evs : list event) : wf (add_events st evs) ↔ wf st.
Proof. reflexivity. Qed.

Lemma sends_on_app (ch : chan) (e1 e2 : list event) :
  sends_on ch (e1 ++ e2) = sends_on ch e1 ++ sends_on ch e2.
Proof. apply omap_app. Qed.

Lemma sends_on_status (ch : chan) (s : Server) (msg : list string) :
  sends_on ch (status_events s msg) = [].
Proof. unfold status_events. by destruct (statusLog s). Qed.

Lemma send_events_is_send h sel v l : Forall (λ e, is_send e = true) (send_events h sel v l).
Proof.
  induction l as [|p l IH]; simpl; [constructor|].
  unfold send_events in *. simpl. destruct (h !! p); simpl; [by constructor | done].
Qed.

Lemma send_events_length h sel v l :
  (∀ p, p ∈ l → is_Some (h !! p)) → length (send_events h sel v l) = length l.
Proof.
  induction l as [|p l IH]; intros Hl; [done|].
  unfold send_events in *. simpl.
  destruct (Hl p) as [o ->]; [left|]. simpl. f_equal. apply IH.
  intros q Hq. apply Hl. by right.
Qed.

(** No send on a channel that no visited object selects. *)
Lemma sends_on_send_events_none h sel v l ch :
  (∀ q o, q ∈ l → h !! q = Some o → sel o ≠ ch) →
  sends_on ch (send_events h sel v l) = [].
Proof.
  induction l as [|p l IH]; intros Hl; [done|].
  unfold send_events, sends_on in *. simpl.
  destruct (h !! p) as [o|] eqn:Hp; simpl.
  - destruct (decide (sel o = ch)) as [E|_].
    + exfalso. eapply Hl; [left | done..].
    + apply IH. intros q o' Hq. apply Hl. by right.
  - apply IH. intros q o' Hq. apply Hl. by right.
Qed.

Lemma send_events_cons h sel v q l :
  send_events h sel v (q :: l)
  = match h !! q with
    | Some o => EvSend (sel o) v :: send_events h sel v l
    | None => send_events h sel v l
    end.
Proof. unfold send_events. simpl. by destruct (h !! q). Qed.

Lemma sends_on_cons_send ch ch' v evs :
  sends_on ch (EvSend ch' v :: evs)
  = if decide (ch' = ch) then v :: sends_on ch evs else sends_on ch evs.
Proof. unfold sends_on. simpl. by destruct (decide (ch' = ch)). Qed.

(** Exactly one send on the channel of a visited object that no other
    visited object shares. *)
Lemma sends_on_send_events_one h sel v l p o :
  NoDup l → p ∈ l → h !! p = Some o →
  (∀ q o', q ∈ l → h !! q = Some o' → sel o' = sel o → q = p) →
  sends_on (sel o) (send_events h sel v l) = [v].
Proof.
  induction l as [|q l IH]; intros Hnd Hin Hp Hinj; [by apply elem_of_nil in Hin|].
  apply NoDup_cons in Hnd as [Hq Hnd].
  rewrite send_events_cons.
  destruct (decide (q = p)) as [->|Hne].
  - rewrite Hp, sends_on_cons_send, decide_True by done.
    rewrite sends_on_send_events_none; [done|].
    intros q o' Hq' Ho' E. assert (q = p) as -> by (eapply Hinj; [by right|done..]). done.
  - apply elem_of_cons in Hin as [->|Hin]; [done|].
    assert (sends_on (sel o) (send_events h sel v l) = [v]) as IH'.
    { apply IH; [done..|]. intros q' o' Hq'. apply Hinj. by right. }
    destruct (h !! q) as [o'|] eqn:Ho'; [|done].
    rewrite sends_on_cons_send, decide_False; [done|].
    intros E. apply Hne. eapply Hinj; [left|done..].
Qed.

(** ** Well-formed states *)

Lemma wf_lookup (st : State) (p : ptr) :
  wf st → p ∈ conns (srv st) → is_Some (heap st !! p).
Proof. intros (H & _) Hp. apply elem_of_dom. set_solver. Qed.

Lemma wf_chans_NoDup (st : State) (p : ptr) (o : conn) :
  wf st → heap st !! p = Some o → NoDup (chans o).
Proof. intros (_ & H & _) Hp. by destruct (H p o Hp). Qed.

(** A channel belongs to one object only. *)
Lemma wf_chan_owner (st : State) (p q : ptr) (o o' : conn) (ch : chan) :
  wf st → heap st !! p = Some o → heap st !! q = Some o' →
  ch ∈ chans o → ch ∈ chans o' → p = q.
Proof.
  intros (_ & _ & H) Hp Hq Hc Hc'.
  destruct (H p o Hp q o' Hq) as [|Hd]; [done|].
  rewrite Forall_forall in Hd. by destruct (Hd ch Hc).
Qed.

Lemma wf_init (s : Server) : conns s = ∅ → wf (init_state s).
Proof.
  intros Hs. unfold wf, init_state. simpl. rewrite Hs.
  split_and!; [set_solver | apply map_Forall_empty..].
Qed.

(** ** Broadcast *)

Lemma logStatus_run (msg : list string) (st : State) :
  logStatus msg st = Some ((), add_events st (status_events (srv st) msg)).
Proof.
  unfold logStatus, status_events. rewrite bind_run. simpl.
  destruct (statusLog (srv st)); [done|]. by rewrite add_events_nil.
Qed.

Lemma logError_run (msg : list string) (st : State) :
  logError msg st =
  Some ((), add_events st match ErrorLog (srv st) with
                          | Some l => [EvPrintln l msg]
                          | None => []
                          end).
Proof.
  unfold logError, ErrorLog. rewrite bind_run. simpl.
  destruct (http.ErrorLog (server (srv st))); [done|]. by rewrite add_events_nil.
Qed.

(** The loop of [Reload] and [Alert], when every visited pointer holds an
    object: one send each, in the order of the visit. *)
Lemma for_range_send (sel : conn → chan) (v : string) (l : list ptr) (st : State) :
  (∀ p, p ∈ l → is_Some (heap st !! p)) →
  for_range l (λ conn, c ← deref conn; chan_send (sel c) v) st
  = Some ((), add_events st (send_events (heap st) sel v l)).
Proof.
  revert st. induction l as [|p l IH]; intros st Hl.
  - simpl. unfold mret, M_ret. by rewrite add_events_nil.
  - destruct (Hl p) as [o Ho]; [left|].
    cbn [for_range]. rewrite bind_run, bind_run. unfold deref at 1. rewrite Ho.
    unfold chan_send. rewrite emit_run.
    rewrite IH by (intros q Hq; apply Hl; by right).
    rewrite add_events_app. do 3 f_equal.
    unfold send_events. simpl. by rewrite Ho.
Qed.

Lemma broadcast_run (sel : conn → chan) (msg v : string) (st : State) :
  wf st →
  (logStatus [msg];; s ← get_srv;
   for_range (range (conns s)) (λ conn, c ← deref conn; chan_send (sel c) v)) st
  = Some ((), add_events st (status_events (srv st) [msg]
                             ++ send_events (heap st) sel v (range (conns (srv st))))).
Proof.
  intros Hwf. rewrite bind_run, logStatus_run, bind_run. simpl.
  rewrite for_range_send.
  - by rewrite add_events_app.
  - intros p Hp. apply (wf_lookup st); [done|]. by apply elem_of_elements.
Qed.

Lemma Reload_run (file : string) (st : State) :
  wf st →
  Reload file st
  = Some ((), add_events st (status_events (srv st) ["requesting reload: " +:+ file]
                             ++ send_events (heap st) reloadChan file (range (conns (srv st))))).
Proof. apply broadcast_run. Qed.

Lemma Alert_run (msg : string) (st : State) :
  wf st →
  Alert msg st
  = Some ((), add_events st (status_events (srv st) ["requesting alert: " +:+ msg]
                             ++ send_events (heap st) alertChan msg (range (conns (srv st))))).
Proof. apply broadcast_run. Qed.

(** What the sends of one broadcast are, channel by channel: one on the
    selected channel of every registered object, none anywhere else. *)
Lemma broadcast_sends (sel : conn → chan) (v : string) (st : State) (p : ptr) (o : conn) :
  wf st → (∀ o', sel o' ∈ chans o') → heap st !! p = Some o →
  let evs := send_events (heap st) sel v (range (conns (srv st))) in
  sends_on (sel o) evs = (if decide (p ∈ conns (srv st)) then [v] else [])
  ∧ ∀ ch, ch ∈ chans o → ch ≠ sel o → sends_on ch evs = [].
Proof.
  intros Hwf Hsel Hp evs. split.
  - destruct (decide (p ∈ conns (srv st))) as [Hin|Hout].
    + eapply sends_on_send_events_one; [apply NoDup_elements|by apply elem_of_elements|done|].
      intros q o' _ Hq E. eapply (wf_chan_owner st q p); [done..| |apply Hsel].
      rewrite <- E. apply Hsel.
    + apply sends_on_send_events_none. intros q o' Hq Ho' E. apply Hout.
      apply elem_of_elements in Hq.
      by rewrite <- (wf_chan_owner st q p o' o (sel o) Hwf Ho' Hp ltac:(rewrite <- E; apply Hsel)
                       ltac:(apply Hsel)).
  - intros ch Hch Hne. apply sends_on_send_events_none. intros q o' Hq Ho' E.
    assert (q = p) as ->.
    { apply (wf_chan_owner st q p o' o ch Hwf Ho' Hp); [rewrite <- E; apply Hsel | done]. }
    by simplify_eq.
Qed.

Lemma reloadChan_in_chans (o : conn) : reloadChan o ∈ chans o.
Proof. unfold chans. set_solver. Qed.

Lemma alertChan_in_chans (o : conn) : alertChan o ∈ chans o.
Proof. unfold chans. set_solver. Qed.

Lemma closeChan_in_chans (o : conn) : closeChan o ∈ chans o.
Proof. unfold chans. set_solver. Qed.

Lemma chans_distinct (o : conn) :
  NoDup (chans o) →
  reloadChan o ≠ alertChan o ∧ reloadChan o ≠ closeChan o ∧ alertChan o ≠ closeChan o.
Proof.
  unfold chans. intros H. apply NoDup_cons in H as [H1 H].
  apply NoDup_cons in H as [H2 _]. set_solver.
Qed.

(** An object that is not registered gets nothing from a broadcast. *)
Lemma broadcast_skips (sel : conn → chan) (v : string) (st : State) (p : ptr) (o : conn) :
  wf st → (∀ o', sel o' ∈ chans o') → heap st !! p = Some o → p ∉ conns (srv st) →
  Forall (λ ch, sends_on ch (send_events (heap st) sel v (range (conns (srv st)))) = [])
         (chans o).
Proof.
  intros Hwf Hsel Hp Hout. apply Forall_forall. intros ch Hch.
  apply sends_on_send_events_none. intros q o' Hq Ho' E. apply Hout.
  apply elem_of_elements in Hq.
  by rewrite <- (wf_chan_owner st q p o' o ch Hwf Ho' Hp ltac:(rewrite <- E; apply Hsel) Hch).
Qed.

(** ** Broadcast fan-out *)

Lemma broadcast_fan_out (sel : conn → chan) (msg v : string) (st : State) :
  wf st → (∀ o, sel o ∈ chans o) →
  ∃ log sends,
    (logStatus [msg];; s ← get_srv;
     for_range (range (conns s)) (λ conn, c ← deref conn; chan_send (sel c) v)) st
    = Some ((), add_events st (log ++ sends))
    ∧ log = status_events (srv st) [msg]
    ∧ Forall (λ e, is_send e = true) sends
    ∧ length sends = size (conns (srv st))
    ∧ ∀ p o, heap st !! p = Some o →
        sends_on (sel o) sends = (if decide (p ∈ conns (srv st)) then [v] else [])
        ∧ ∀ ch, ch ∈ chans o → ch ≠ sel o → sends_on ch sends = [].
Proof.
  intros Hwf Hsel.
  exists (status_events (srv st) [msg]),
         (send_events (heap st) sel v (range (conns (srv st)))).
  split_and!.
  - by apply broadcast_run.
  - done.
  - apply send_events_is_send.
  - rewrite send_events_length; [done|].
    intros p Hp. apply (wf_lookup st); [done|]. by apply elem_of_elements.
  - intros p o Hp. by apply (broadcast_sends sel v st p o).
Qed.

Lemma status_events_println (s : Server) (msg : list string) :
  Forall (λ e, is_println e = true) (status_events s msg).
Proof. unfold status_events. destruct (statusLog s); by repeat constructor. Qed.

(** C1. [Reload(file)] returns after one send of [file] on the reload
    channel of every registered connection: besides the status line the
    call does nothing but these sends, one per member of the registry;
    no alert or close channel gets anything, and no channel of an
    unregistered connection does.  [Alert(msg)] is the same on the alert
    channels. *)
Theorem Reload_Alert_fan_out (st : State) (v : string) :
  wf st →
  (∃ log sends,
      Reload v st = Some ((), add_events st (log ++ sends))
      ∧ Forall (λ e, is_println e = true) log
      ∧ Forall (λ e, is_send e = true) sends
      ∧ length sends = size (conns (srv st))
      ∧ ∀ p o, heap st !! p = Some o →
          sends_on (reloadChan o) sends = (if decide (p ∈ conns (srv st)) then [v] else [])
          ∧ sends_on (alertChan o) sends = []
          ∧ sends_on (closeChan o) sends = [])
  ∧ (∃ log sends,
      Alert v st = Some ((), add_events st (log ++ sends))
      ∧ Forall (λ e, is_println e = true) log
      ∧ Forall (λ e, is_send e = true) sends
      ∧ length sends = size (conns (srv st))
      ∧ ∀ p o, heap st !! p = Some o →
          sends_on (alertChan o) sends = (if decide (p ∈ conns (srv st)) then [v] else [])
          ∧ sends_on (reloadChan o) sends = []
          ∧ sends_on (closeChan o) sends = []).
Proof.
  intros Hwf. split.
  - destruct (broadcast_fan_out reloadChan ("requesting reload: " +:+ v) v st Hwf
                reloadChan_in_chans) as (log & sends & Hrun & -> & Hs & Hlen & Hch).
    exists (status_events (srv st) ["requesting reload: " +:+ v]), sends.
    split_and!; [done|apply status_events_println|done..|].
    intros p o Hp. destruct (Hch p o Hp) as [H1 H2].
    destruct (chans_distinct o (wf_chans_NoDup st p o Hwf Hp)) as (? & ? & ?).
    split_and!; [done|apply H2|apply H2];
      auto using alertChan_in_chans, closeChan_in_chans.
  - destruct (broadcast_fan_out alertChan ("requesting alert: " +:+ v) v st Hwf
                alertChan_in_chans) as (log & sends & Hrun & -> & Hs & Hlen & Hch).
    exists (status_events (srv st) ["requesting alert: " +:+ v]), sends.
    split_and!; [done|apply status_events_println|done..|].
    intros p o Hp. destruct (Hch p o Hp) as [H1 H2].
    destruct (chans_distinct o (wf_chans_NoDup st p o Hwf Hp)) as (? & ? & ?).
    split_and!; [done|apply H2|apply H2];
      auto using reloadChan_in_chans, closeChan_in_chans.
Qed.

Lemma wf_ex_state : wf ex_state.
Proof. apply (bool_decide_unpack _). vm_compute. exact I. Defined.

Lemma Reload_Alert_fan_out_witness :
  wf ex_state
  ∧ (∃ log sends,
      Reload "x.css" ex_state = Some ((), add_events ex_state (log ++ sends))
      ∧ Forall (λ e, is_println e = true) log
      ∧ Forall (λ e, is_send e = true) sends
      ∧ length sends = size (conns (srv ex_state))
      ∧ ∀ p o, heap ex_state !! p = Some o →
          sends_on (reloadChan o) sends
          = (if decide (p ∈ conns (srv ex_state)) then ["x.css"%string] else [])
          ∧ sends_on (alertChan o) sends = []
          ∧ sends_on (closeChan o) sends = []).
Proof.
  split; [exact wf_ex_state|].
  exact (proj1 (Reload_Alert_fan_out ex_state "x.css" wf_ex_state)).
Defined.

(** ** Leaving the registry *)

Lemma close_conn_run (c : ptr) (st : State) :
  close_conn c st
  = Some ((), {| srv := set_conns (srv st) (conns (srv st) ∖ {[c]});
                 heap := heap st; next_chan := next_chan st;
                 trace := trace st ++ [EvRemove c] |}).
Proof. reflexivity. Qed.

Lemma wf_shrink (st : State) (cs : connSet) (tr : list event) :
  wf st → cs ⊆ conns (srv st) →
  wf {| srv := set_conns (srv st) cs; heap := heap st;
        next_chan := next_chan st; trace := tr |}.
Proof. intros (H1 & H2 & H3) Hcs. split_and!; [simpl; set_solver | done..]. Qed.

Lemma run_call_skips (cl : call) (st : State) (p : ptr) (o : conn) :
  wf st → heap st !! p = Some o → p ∉ conns (srv st) →
  ∃ evs, run_call cl st = Some ((), add_events st evs)
         ∧ Forall (λ ch, sends_on ch evs = []) (chans o).
Proof.
  intros Hwf Hp Hout. destruct cl as [file|msg]; simpl.
  - eexists. split; [by apply Reload_run|].
    eapply Forall_impl;
      [apply (broadcast_skips reloadChan file st p o Hwf reloadChan_in_chans Hp Hout)|].
    intros ch Hch. by rewrite sends_on_app, sends_on_status, Hch.
  - eexists. split; [by apply Alert_run|].
    eapply Forall_impl;
      [apply (broadcast_skips alertChan msg st p o Hwf alertChan_in_chans Hp Hout)|].
    intros ch Hch. by rewrite sends_on_app, sends_on_status, Hch.
Qed.

Lemma run_calls_skips (cls : list call) (st : State) (p : ptr) (o : conn) :
  wf st → heap st !! p = Some o → p ∉ conns (srv st) →
  ∃ evs, run_calls cls st = Some ((), add_events st evs)
         ∧ Forall (λ ch, sends_on ch evs = []) (chans o).
Proof.
  revert st. induction cls as [|cl cls IH]; intros st Hwf Hp Hout.
  - exists []. rewrite add_events_nil. split; [done|]. by apply Forall_forall.
  - destruct (run_call_skips cl st p o Hwf Hp Hout) as (e1 & Hrun & H1).
    destruct (IH (add_events st e1)) as (e2 & Hrun2 & H2); [done..|].
    exists (e1 ++ e2). split.
    + unfold run_calls in *. cbn [for_range]. rewrite bind_run, Hrun, Hrun2.
      by rewrite add_events_app.
    + rewrite Forall_forall in H1, H2. apply Forall_forall. intros ch Hch.
      by rewrite sends_on_app, H1, H2.
Qed.

(** ** Absent sinks *)

Lemma status_events_None (s : Server) (msg : list string) :
  statusLog s = None → status_events s msg = [].
Proof. unfold status_events. by intros ->. Qed.

Lemma status_events_Some (s : Server) (l : log.Logger) (msg : list string) :
  statusLog s = Some l → status_events s msg = [EvPrintln l msg].
Proof. unfold status_events. by intros ->. Qed.

(** C7. With a nil status logger [Reload] and [Alert] return normally,
    print nothing and still send to every registered connection, and
    [logStatus] does nothing; with a nil error logger [logError] does
    nothing.  With a status logger, each of [Reload] and [Alert] first
    prints its request on it. *)
Theorem nil_sinks_are_silent (st : State) (v : string) (msg : list string) :
  wf st →
  (StatusLog (srv st) = None →
     logStatus msg st = Some ((), st)
     ∧ (∃ sends, Reload v st = Some ((), add_events st sends)
          ∧ Forall (λ e, is_send e = true) sends
          ∧ ∀ p o, p ∈ conns (srv st) → heap st !! p = Some o →
                   sends_on (reloadChan o) sends = [v])
     ∧ (∃ sends, Alert v st = Some ((), add_events st sends)
          ∧ Forall (λ e, is_send e = true) sends
          ∧ ∀ p o, p ∈ conns (srv st) → heap st !! p = Some o →
                   sends_on (alertChan o) sends = [v]))
  ∧ (ErrorLog (srv st) = None → logError msg st = Some ((), st))
  ∧ (∀ l, StatusLog (srv st) = Some l →
       (∃ sends, Reload v st
                 = Some ((), add_events st (EvPrintln l ["requesting reload: " +:+ v] :: sends))
          ∧ Forall (λ e, is_send e = true) sends)
       ∧ (∃ sends, Alert v st
                   = Some ((), add_events st (EvPrintln l ["requesting alert: " +:+ v] :: sends))
            ∧ Forall (λ e, is_send e = true) sends)).
Proof.
  intros Hwf. unfold StatusLog. split_and!.
  - intros Hnil. split_and!.
    + by rewrite logStatus_run, status_events_None, add_events_nil.
    + exists (send_events (heap st) reloadChan v (range (conns (srv st)))).
      rewrite Reload_run, status_events_None by done.
      split_and!; [done|apply send_events_is_send|].
      intros p o Hin Hp.
      destruct (broadcast_sends reloadChan v st p o Hwf reloadChan_in_chans Hp) as [H _].
      by rewrite decide_True in H.
    + exists (send_events (heap st) alertChan v (range (conns (srv st)))).
      rewrite Alert_run, status_events_None by done.
      split_and!; [done|apply send_events_is_send|].
      intros p o Hin Hp.
      destruct (broadcast_sends alertChan v st p o Hwf alertChan_in_chans Hp) as [H _].
      by rewrite decide_True in H.
  - intros Hnil. by rewrite logError_run, Hnil, add_events_nil.
  - intros l Hl. split.
    + exists (send_events (heap st) reloadChan v (range (conns (srv st)))).
      rewrite Reload_run, (status_events_Some _ l) by done.
      split; [done|apply send_events_is_send].
    + exists (send_events (heap st) alertChan v (range (conns (srv st)))).
      rewrite Alert_run, (status_events_Some _ l) by done.
      split; [done|apply send_events_is_send].
Qed.

Lemma wf_ex_state_quiet : wf ex_state_quiet.
Proof. apply (bool_decide_unpack _). vm_compute. exact I. Defined.

Lemma nil_sinks_are_silent_witness :
  wf ex_state_quiet
  ∧ StatusLog (srv ex_state_quiet) = None
  ∧ ErrorLog (srv ex_state_quiet) = None
  ∧ logStatus ["up"%string] ex_state_quiet = Some ((), ex_state_quiet)
  ∧ logError ["up"%string] ex_state_quiet = Some ((), ex_state_quiet)
  ∧ (∃ sends, Reload "x.css" ex_state_quiet = Some ((), add_events ex_state_quiet sends)
       ∧ Forall (λ e, is_send e = true) sends
       ∧ ∀ p o, p ∈ conns (srv ex_state_quiet) → heap ex_state_quiet !! p = Some o →
                sends_on (reloadChan o) sends = ["x.css"%string]).
Proof.
  pose proof (nil_sinks_are_silent ex_state_quiet "x.css" ["up"%string] wf_ex_state_quiet)
    as (Hs & He & _).
  split; [exact wf_ex_state_quiet|]. split; [reflexivity|]. split; [reflexivity|].
  split; [exact (proj1 (Hs eq_refl))|]. split; [exact (He eq_refl)|].
  exact (proj1 (proj2 (Hs eq_refl))).
Defined.

(** ** Accepting a connection *)

Lemma newConn_run (wsConn : socket) (st : State) :
  let c := fresh (dom (heap st)) in
  newConn wsConn st
  = Some ((), {| srv := set_conns (srv st) ({[c]} ∪ conns (srv st));
                 heap := <[c := new_conn_of wsConn st]> (heap st);
                 next_chan := Pos.succ (Pos.succ (Pos.succ (next_chan st)));
                 trace := trace st ++ [EvAdd c; EvGo c] |}).
Proof.
  cbv [newConn mbind M_bind make_chan alloc connSet_add emit put_srv get_srv new_conn_of].
  cbn [srv heap next_chan trace]. by rewrite <- app_assoc.
Qed.

Lemma fresh_conn_unused (st : State) :
  wf st →
  heap st !! fresh (dom (heap st)) = None ∧ fresh (dom (heap st)) ∉ conns (srv st).
Proof.
  intros (Hsub & _). pose proof (is_fresh (dom (heap st))) as Hf.
  split; [by apply not_elem_of_dom | set_solver].
Qed.

Lemma new_conn_chans_fresh (wsConn : socket) (st : State) (p : ptr) (o : conn) :
  wf st → heap st !! p = Some o →
  Forall (λ ch, ch ∉ chans o) (chans (new_conn_of wsConn st))
  ∧ Forall (λ ch, ch ∉ chans (new_conn_of wsConn st)) (chans o).
Proof.
  intros (_ & Hb & _) Hp. destruct (Hb p o Hp) as [_ Hlt].
  rewrite Forall_forall in Hlt. split; apply Forall_forall; intros ch Hch Hch'.
  - apply Hlt in Hch'. unfold chans, new_conn_of in Hch. simpl in Hch.
    set_unfold. lia.
  - apply Hlt in Hch. unfold chans, new_conn_of in Hch'. simpl in Hch'.
    set_unfold. lia.
Qed.

Lemma new_conn_chans_NoDup (wsConn : socket) (st : State) :
  NoDup (chans (new_conn_of wsConn st)).
Proof.
  unfold chans, new_conn_of. simpl.
  repeat (apply NoDup_cons; split; [set_unfold; lia|]). apply NoDup_nil_2.
Qed.

(** [newConn] keeps states well-formed. *)
Lemma wf_newConn (wsConn : socket) (st st' : State) :
  wf st → newConn wsConn st = Some ((), st') → wf st'.
Proof.
  intros Hwf. rewrite newConn_run. intros [= <-].
  destruct (fresh_conn_unused st Hwf) as [Hnone _].
  pose proof Hwf as (Hsub & Hb & Hd). split_and!; simpl.
  - rewrite dom_insert_L. by apply union_mono_l.
  - apply map_Forall_insert; [done|]. split.
    + split; [apply new_conn_chans_NoDup|].
      unfold chans, new_conn_of. simpl. repeat constructor; lia.
    + intros p o Hp. destruct (Hb p o Hp) as [Hnd Hlt]. split; [done|].
      eapply Forall_impl; [exact Hlt|]. simpl. intros. lia.
  - apply map_Forall_insert; [done|]. split.
    + apply map_Forall_insert; [done|]. split; [by left|].
      intros q o Hq. right. by apply (new_conn_chans_fresh wsConn st q o).
    + intros p o Hp. apply map_Forall_insert; [done|]. split.
      * right. by apply (new_conn_chans_fresh wsConn st p o).
      * by apply Hd.
Qed.

(** C8. [newConn] builds one new connection object, its handshake not
    completed and with three channels no other connection has, enters it
    in the registry once, and after that starts its state machine with
    [go]: the new connection is a member of the registry after the call,
    the registry is the old one plus exactly this connection and is one
    larger, the other connection objects and the configuration are as
    they were, and the call leaves one insertion followed by one start in
    the trace. *)
Theorem newConn_registers_then_starts (wsConn : socket) (st : State) :
  wf st →
  ∃ c o st',
    (newConn wsConn st = Some ((), st'))
    ∧ heap st !! c = None
    ∧ (c ∉ conns (srv st))
    ∧ heap st' = <[c := o]> (heap st)
    ∧ ws o = wsConn
    ∧ handshake o = false
    ∧ NoDup (chans o)
    ∧ (∀ p o', heap st !! p = Some o' → Forall (λ ch, ch ∉ chans o') (chans o))
    ∧ srv st' = set_conns (srv st) ({[c]} ∪ conns (srv st))
    ∧ trace st' = trace st ++ [EvAdd c; EvGo c]
    ∧ wf st'
    ∧ (c ∈ conns (srv st'))
    ∧ (∀ p, p ∈ conns (srv st') ↔ p = c ∨ p ∈ conns (srv st))
    ∧ size (conns (srv st')) = S (size (conns (srv st)))
    ∧ heap st' !! c = Some o
    ∧ (∀ p, p ≠ c → heap st' !! p = heap st !! p)
    ∧ Name (srv st') = Name (srv st)
    ∧ Host (srv st') = Host (srv st)
    ∧ Port (srv st') = Port (srv st)
    ∧ LiveCSS (srv st') = LiveCSS (srv st)
    ∧ StatusLog (srv st') = StatusLog (srv st)
    ∧ ErrorLog (srv st') = ErrorLog (srv st).
Proof.
  intros Hwf. pose proof (newConn_run wsConn st) as Hrun. simpl in Hrun.
  destruct (fresh_conn_unused st Hwf) as [Hnone Hout].
  pose proof (new_conn_chans_NoDup wsConn st) as Hnd.
  pose proof (wf_newConn wsConn st _ Hwf Hrun) as Hwf'.
  assert (∀ p o', heap st !! p = Some o' →
            Forall (λ ch, ch ∉ chans o') (chans (new_conn_of wsConn st))) as Hfresh.
  { intros p o' Hp. by apply (new_conn_chans_fresh wsConn st p o'). }
  exists (fresh (dom (heap st))), (new_conn_of wsConn st).
  eexists. split; [exact Hrun|]. cbn [srv heap trace conns set_conns].
  split_and!; try done.
  - apply elem_of_union_l. by apply elem_of_singleton.
  - intros p. by rewrite elem_of_union, elem_of_singleton.
  - rewrite size_union.
    + by rewrite size_singleton.
    + intros p Hp%elem_of_singleton Hin. by subst p.
  - apply lookup_insert_eq.
  - intros p Hp. by apply lookup_insert_ne.
Qed.

Lemma newConn_registers_then_starts_witness :
  wf ex_state
  ∧ ∃ c o st',
    (newConn 14 ex_state = Some ((), st'))
    ∧ heap ex_state !! c = None
    ∧ (c ∉ conns (srv ex_state))
    ∧ heap st' = <[c := o]> (heap ex_state)
    ∧ ws o = 14%positive
    ∧ handshake o = false
    ∧ NoDup (chans o)
    ∧ (∀ p o', heap ex_state !! p = Some o' → Forall (λ ch, ch ∉ chans o') (chans o))
    ∧ srv st' = set_conns (srv ex_state) ({[c]} ∪ conns (srv ex_state))
    ∧ trace st' = trace ex_state ++ [EvAdd c; EvGo c]
    ∧ wf st'
    ∧ (c ∈ conns (srv st'))
    ∧ (∀ p, p ∈ conns (srv st') ↔ p = c ∨ p ∈ conns (srv ex_state))
    ∧ size (conns (srv st')) = S (size (conns (srv ex_state)))
    ∧ heap st' !! c = Some o
    ∧ (∀ p, p ≠ c → heap st' !! p = heap ex_state !! p)
    ∧ Name (srv st') = Name (srv ex_state)
    ∧ Host (srv st') = Host (srv ex_state)
    ∧ Port (srv st') = Port (srv ex_state)
    ∧ LiveCSS (srv st') = LiveCSS (srv ex_state)
    ∧ StatusLog (srv st') = StatusLog (srv ex_state)
    ∧ ErrorLog (srv st') = ErrorLog (srv ex_state).
Proof.
  split; [exact wf_ex_state|].
  exact (newConn_registers_then_starts 14 ex_state wf_ex_state).
Defined.

(** ** Construction and configuration *)

(** C9. [New] always returns a server and a nil error; the server carries
    the name, host and port it was given, has an empty registry and has
    live CSS switched on. *)
Theorem New_builds_server (name host : string) (port : Z) :
  ∃ s, New name host port = (Some s, None)
    ∧ Name s = name ∧ Host s = host ∧ Port s = port
    ∧ conns s = ∅ ∧ LiveCSS s = true.
Proof. eexists. split; [reflexivity|]. by split_and!. Qed.

Example New_default : New "LiveReload" "" 35729 = (Some ex_server, None).
Proof. reflexivity. Qed.

(** The state a new server starts in is well-formed. *)
Lemma wf_New (name host : string) (port : Z) (s : Server) :
  New name host port = (Some s, None) → wf (init_state s).
Proof. intros [= <-]. by apply wf_init. Qed.

(** No setter writes the name, the host or the port. *)
Lemma run_setter_frame (c : setter_call) (s : Server) :
  Name (run_setter c s) = Name s
  ∧ Host (run_setter c s) = Host s
  ∧ Port (run_setter c s) = Port s
  ∧ conns (run_setter c s) = conns s.
Proof. by destruct c. Qed.

(** C5 as the spec words it fails: the name has no setter.  On the
    server [New("LiveReload", "", 35729)] builds, no call of a setter makes
    [Name] return "other". *)
Lemma name_has_no_setter :
  ¬ settable FName
  ∧ ¬ ∃ c : setter_call, Name (run_setter c ex_server) = "other"%string.
Proof.
  assert (¬ ∃ c : setter_call, Name (run_setter c ex_server) = "other"%string) as Hno.
  { intros [c Hc]. destruct (run_setter_frame c ex_server) as [Hn _].
    rewrite Hn in Hc. discriminate Hc. }
  split; [|exact Hno].
  intros H. destruct (H "other"%string) as [c Hc]. apply Hno. exists c. apply Hc.
Qed.

(** C5, amended. The live-CSS flag, the status logger and the error logger
    each have a setter, and the getter returns what the setter was given;
    a setter leaves the other five fields as they were.  The name, the
    host and the port have no setter. *)
Theorem setters_and_getters :
  (settable FLiveCSS ∧ settable FStatusLog ∧ settable FErrorLog)
  ∧ (∀ s n, LiveCSS (SetLiveCSS s n) = n
       ∧ Name (SetLiveCSS s n) = Name s ∧ Host (SetLiveCSS s n) = Host s
       ∧ Port (SetLiveCSS s n) = Port s
       ∧ StatusLog (SetLiveCSS s n) = StatusLog s
       ∧ ErrorLog (SetLiveCSS s n) = ErrorLog s)
  ∧ (∀ s l, StatusLog (SetStatusLog s l) = l
       ∧ Name (SetStatusLog s l) = Name s ∧ Host (SetStatusLog s l) = Host s
       ∧ Port (SetStatusLog s l) = Port s
       ∧ LiveCSS (SetStatusLog s l) = LiveCSS s
       ∧ ErrorLog (SetStatusLog s l) = ErrorLog s)
  ∧ (∀ s l, ErrorLog (SetErrorLog s l) = l
       ∧ Name (SetErrorLog s l) = Name s ∧ Host (SetErrorLog s l) = Host s
       ∧ Port (SetErrorLog s l) = Port s
       ∧ LiveCSS (SetErrorLog s l) = LiveCSS s
       ∧ StatusLog (SetErrorLog s l) = StatusLog s)
  ∧ (¬ settable FName ∧ ¬ settable FHost ∧ ¬ settable FPort).
Proof.
  split_and!; try done.
  - intros n. by exists (CallSetLiveCSS n).
  - intros l. by exists (CallSetStatusLog l).
  - intros l. by exists (CallSetErrorLog l).
  - intros H. destruct (H "other"%string) as [c Hc]. specialize (Hc ex_server).
    by destruct c.
  - intros H. destruct (H "other"%string) as [c Hc]. specialize (Hc ex_server).
    by destruct c.
  - intros H. destruct (H 1) as [c Hc]. specialize (Hc ex_server).
    by destruct c.
Qed.

(** ** Serving *)

(** C6. When the listener cannot bind, [ListenAndServe] returns the error
    of [net.Listen] and leaves everything as it was: the server is not
    served, nothing is logged, and the registry and its connections are
    untouched. *)
Theorem ListenAndServe_bind_error
    (net_Listen : string → string → net.Listener + error)
    (http_Serve : http.Server → net.Listener → error)
    (Sprintf_js : string → Z → string) (st : State) (err : error) :
  net_Listen "tcp"%string (Addr (srv st)) = inr err →
  ListenAndServe net_Listen http_Serve Sprintf_js st = Some (Some err, st).
Proof.
  intros Hl. unfold ListenAndServe. rewrite bind_run. cbn [get_srv]. by rewrite Hl.
Qed.

Lemma ListenAndServe_bind_error_witness :
  let net_Listen := λ _ addr : string,
    if String.eqb addr ":35729" then inr (OpError "address already in use")
    else inl {| net.laddr := addr |} in
  let http_Serve := λ (_ : http.Server) (_ : net.Listener), OpError "closed" in
  let Sprintf_js := λ (h : string) (_ : Z), h in
  net_Listen "tcp"%string (Addr (srv ex_state)) = inr (OpError "address already in use")
  ∧ ListenAndServe net_Listen http_Serve Sprintf_js ex_state
    = Some (Some (OpError "address already in use"), ex_state).
Proof.
  split; [reflexivity|].
  by apply (ListenAndServe_bind_error _ _ _ ex_state (OpError "address already in use")).
Defined.

(** ** Handshake gating *)

Section Gating.

Import Connection.

Variable supported : string.
Variable serverName : string.
Variable liveCSS : bool.

Abbreviation step := (step supported serverName liveCSS).
Abbreviation run := (run supported serverName liveCSS).
Abbreviation gating_inv := (gating_inv supported serverName).

Lemma gating_inv_initial : gating_inv initial.
Proof. split; [done|]. simpl. discriminate. Qed.

(** The handshake completes in one way only. *)
Lemma step_completes (c c' : cstate) (i : input) :
  step c i = Some c' → handshakeComplete c = false → handshakeComplete c' = true →
  ∃ ps, i = Inbound (Hello ps) ∧ supported ∈ ps
        ∧ at_phase c = AwaitingHandshake ∧ at_phase c' = Live
        ∧ written c' = written c ++ [ServerHello [supported] serverName].
Proof.
  unfold Connection.step. intros Hs Hf Ht.
  destruct (at_phase c) eqn:Hph, i as [|[ps|cmd]| | |file [|]|msg [|]| |];
    simplify_eq/=; try congruence.
  case_bool_decide; simplify_eq/=; [|congruence].
  by exists ps.
Qed.

(** A command frame is only written in Live. *)
Lemma step_writes_command (c c' : cstate) (i : input) (f : frame) :
  step c i = Some c' → written c' = written c ++ [f] → is_command_frame f = true →
  at_phase c = Live.
Proof.
  unfold Connection.step. intros Hs Hw Hf.
  destruct (at_phase c) eqn:Hph, i as [|[ps|cmd]| | |file [|]|msg [|]| |];
    simplify_eq/=; try done;
    try (apply (f_equal length) in Hw; rewrite length_app in Hw; simpl in Hw; lia).
  case_bool_decide; simplify_eq/=;
    apply (f_equal length) in Hw; rewrite length_app in Hw; simpl in Hw; lia.
Qed.

Lemma step_inv (c c' : cstate) (i : input) :
  gating_inv c → step c i = Some c' → gating_inv c'.
Proof.
  unfold Connection.step, gating_inv. intros [Hf Ht] Hs.
  destruct (at_phase c) eqn:Hph, i as [|[ps|cmd]| | |file [|]|msg [|]| |];
    simplify_eq/=;
    try (split; intros Hh;
         [ destruct (Hf Hh) as [? ?]; split; [done|congruence]
         | destruct (Ht Hh) as (? & ? & fs & ? & ?); split_and!;
           [congruence..|by exists fs] ]).
  - case_bool_decide; simplify_eq/=.
    + split; [done|]. intros _. split_and!; [done..|].
      destruct (handshakeComplete c) eqn:E.
      * destruct (Ht eq_refl) as (_ & ? & _). congruence.
      * destruct (Hf eq_refl) as [-> _]. by exists [].
    + split; intros Hh;
        [ destruct (Hf Hh) as [? ?]; split; [done|congruence]
        | destruct (Ht Hh) as (? & ? & fs & ? & ?); split_and!;
          [congruence..|by exists fs] ].
  - split; intros Hh; [destruct (Hf Hh) as [_ Hl]; congruence|].
    destruct (Ht Hh) as (? & ? & fs & -> & Hfs). split_and!; [congruence..|].
    exists (fs ++ [ReloadFrame file liveCSS]). split; [done|].
    apply Forall_app. split; [done|]. by repeat constructor.
  - split; intros Hh; [destruct (Hf Hh) as [_ Hl]; congruence|].
    destruct (Ht Hh) as (? & ? & fs & -> & Hfs). split_and!; [congruence..|].
    exists (fs ++ [AlertFrame msg]). split; [done|].
    apply Forall_app. split; [done|]. by repeat constructor.
Qed.

Lemma run_inv (c : cstate) (ins : list input) : gating_inv c → gating_inv (run c ins).
Proof.
  revert c. induction ins as [|i ins IH]; intros c Hc; [done|]. simpl.
  destruct (step c i) as [c'|] eqn:Hs; [|by apply IH].
  apply IH. by apply (step_inv c c' i).
Qed.

(** Closed is terminal: whatever is offered, the state stays as it is. *)
Lemma closed_terminal (c : cstate) (ins : list input) :
  at_phase c = Closed → run c ins = c.
Proof.
  intros Hc. induction ins as [|i ins IH]; [done|].
  cbn [Connection.run]. unfold Connection.step. rewrite Hc.
  by destruct i.
Qed.

Lemma gated_commands (fs : list frame) :
  Forall (λ f, is_command_frame f = true) fs → gated true fs = true.
Proof.
  induction 1 as [|f fs Hf _ IH]; [done|]. simpl. by destruct f.
Qed.

End Gating.

(** C2. A connection starts with its handshake not completed.  At every
    moment of every run, the frames written so far have no reload or alert
    frame before the server's hello, and nothing at all is written while
    the handshake is not complete.  A step that writes a reload or alert
    frame starts from a state whose handshake is complete, and the only
    step that completes the handshake takes a client hello that names the
    supported protocol and writes the server's hello. *)
Theorem handshake_gating (supported serverName : string) (liveCSS : bool)
    (ins : list Connection.input) (i : Connection.input) (c' : Connection.cstate) :
  let c := Connection.run supported serverName liveCSS Connection.initial ins in
  Connection.handshakeComplete Connection.initial = false
  ∧ Connection.gated false (Connection.written c) = true
  ∧ (Connection.handshakeComplete c = false → Connection.written c = [])
  ∧ (Connection.step supported serverName liveCSS c i = Some c' →
     (∀ f, Connection.written c' = Connection.written c ++ [f] →
           Connection.is_command_frame f = true →
           Connection.handshakeComplete c = true)
     ∧ (Connection.handshakeComplete c = false → Connection.handshakeComplete c' = true →
        ∃ ps, i = Connection.Inbound (Connection.Hello ps) ∧ supported ∈ ps
              ∧ Connection.written c'
                = Connection.written c ++ [Connection.ServerHello [supported] serverName])).
Proof.
  intros c.
  pose proof (run_inv supported serverName liveCSS Connection.initial ins
                (gating_inv_initial supported serverName)) as [Hf Ht].
  fold c in Hf, Ht. split_and!.
  - done.
  - destruct (Connection.handshakeComplete c) eqn:E.
    + destruct (Ht eq_refl) as (_ & _ & fs & -> & Hfs). simpl. by apply gated_commands.
    + by destruct (Hf eq_refl) as [-> _].
  - intros E. by destruct (Hf E).
  - intros Hs. split.
    + intros f Hw Hc.
      pose proof (step_writes_command _ _ _ c c' i f Hs Hw Hc) as Hl.
      destruct (Connection.handshakeComplete c) eqn:E; [done|].
      by destruct (Hf eq_refl) as [_ ?].
    + intros E E'.
      destruct (step_completes _ _ _ c c' i Hs E E') as (ps & ? & ? & _ & _ & ?).
      by exists ps.
Qed.

Lemma handshake_gating_witness :
  let proto := "http://livereload.com/protocols/official-7"%string in
  let ins := [Connection.Enter;
              Connection.QueuedReload "early.css" true;
              Connection.Inbound (Connection.Hello [proto]);
              Connection.QueuedReload "x.css" true] in
  let c := Connection.run proto "LiveReload" true Connection.initial ins in
  Connection.step proto "LiveReload" true c (Connection.QueuedAlert "oops" true)
  = Some (Connection.write (Connection.AlertFrame "oops") c)
  ∧ Connection.written c
    = [Connection.ServerHello [proto] "LiveReload"; Connection.ReloadFrame "x.css" true]
  ∧ Connection.gated false (Connection.written c) = true
  ∧ Connection.handshakeComplete c = true.
Proof.
  intros proto ins c.
  assert (Connection.step proto "LiveReload" true c (Connection.QueuedAlert "oops" true)
          = Some (Connection.write (Connection.AlertFrame "oops") c)) as Hs by reflexivity.
  pose proof (handshake_gating proto "LiveReload" true ins
                (Connection.QueuedAlert "oops" true)
                (Connection.write (Connection.AlertFrame "oops") c)) as (_ & Hg & _ & Hstep).
  split; [exact Hs|]. split; [reflexivity|]. split; [exact Hg|].
  exact (proj1 (Hstep Hs) (Connection.AlertFrame "oops") eq_refl eq_refl).
Defined.

(** ** Closed connections *)

(** C3. Once a connection has left the registry on its way to Closed, it is
    absent from the registry, and every later sequence of [Reload] and
    [Alert] calls returns without a send on any of its channels: nothing
    blocks on it, nothing is delivered to it.  A Closed connection that is
    still offered a command drops it: its state stays as it is and no frame
    is written. *)
Theorem closed_conn_unreachable (st : State) (c : ptr) (o : conn) (cls : list call)
    (supported serverName : string) (liveCSS : bool)
    (cc : Connection.cstate) (ins : list Connection.input) :
  wf st → heap st !! c = Some o → Connection.at_phase cc = Connection.Closed →
  (∃ st1, (close_conn c st = Some ((), st1))
     ∧ (c ∉ conns (srv st1))
     ∧ (∃ evs, (run_calls cls st1 = Some ((), add_events st1 evs))
         ∧ (c ∉ conns (srv (add_events st1 evs)))
         ∧ Forall (λ ch, sends_on ch evs = []) (chans o)))
  ∧ Connection.run supported serverName liveCSS cc ins = cc.
Proof.
  intros Hwf Hc Hcc. split; [|by apply closed_terminal].
  exists {| srv := set_conns (srv st) (conns (srv st) ∖ {[c]});
            heap := heap st; next_chan := next_chan st;
            trace := trace st ++ [EvRemove c] |}.
  split; [apply close_conn_run|].
  assert (c ∉ conns (srv st) ∖ {[c]}) as Hout.
  { intros [_ H]%elem_of_difference. by apply H, elem_of_singleton. }
  split; [done|].
  destruct (run_calls_skips cls
              {| srv := set_conns (srv st) (conns (srv st) ∖ {[c]});
                 heap := heap st; next_chan := next_chan st;
                 trace := trace st ++ [EvRemove c] |} c o) as (evs & Hrun & Hev);
    [apply (wf_shrink st (conns (srv st) ∖ {[c]})); [done|by apply subseteq_difference_l]
    |exact Hc|exact Hout|].
  exists evs. split_and!; [exact Hrun|done..].
Qed.

Lemma closed_conn_unreachable_witness :
  let cc := {| Connection.at_phase := Connection.Closed;
               Connection.handshakeComplete := true;
               Connection.written := [Connection.ServerHello ["v7"%string] "LiveReload"];
               Connection.registered := false |} in
  wf ex_state ∧ heap ex_state !! 2%positive = Some (ex_conn 12 4 5 6)
  ∧ Connection.at_phase cc = Connection.Closed
  ∧ (∃ st1, (close_conn 2 ex_state = Some ((), st1))
      ∧ (2%positive ∉ conns (srv st1))
      ∧ (∃ evs, (run_calls [CallReload "x.css"; CallAlert "oops"] st1
                 = Some ((), add_events st1 evs))
          ∧ (2%positive ∉ conns (srv (add_events st1 evs)))
          ∧ Forall (λ ch, sends_on ch evs = []) (chans (ex_conn 12 4 5 6))))
  ∧ Connection.run "v7" "LiveReload" true cc
      [Connection.QueuedReload "x.css" true; Connection.QueuedAlert "oops" true] = cc.
Proof.
  intros cc.
  split; [exact wf_ex_state|]. split; [reflexivity|]. split; [reflexivity|].
  exact (closed_conn_unreachable ex_state 2 (ex_conn 12 4 5 6)
           [CallReload "x.css"; CallAlert "oops"] "v7" "LiveReload" true cc
           [Connection.QueuedReload "x.css" true; Connection.QueuedAlert "oops" true]
           wf_ex_state eq_refl eq_refl).
Defined.

(** ** More on the address helpers *)

Lemma dec_val_ge (cs : string) (n : Z) :
  string_all is_digit cs = true → 0 ≤ n → n ≤ dec_val cs n.
Proof.
  revert n. induction cs as [|c cs IH]; intros n; cbn [string_all dec_val]; [lia|].
  intros [Hc Hcs]%andb_prop Hn. unfold is_digit in Hc. apply andb_prop in Hc as [H1 H2].
  etrans; [|apply IH; [done|lia]]. lia.
Qed.

(** Decimal digits whose value fits are read in full. *)
Lemma parse16_complete (s0 cs : string) (n : Z) :
  string_all is_digit cs = true → 0 ≤ n → dec_val cs n ≤ 65535 →
  parse16 s0 cs n = (dec_val cs n, None).
Proof.
  revert n. induction cs as [|c cs IH]; intros n; cbn [string_all dec_val]; [done|].
  intros [Hc Hcs]%andb_prop Hn Hle.
  assert (0 ≤ byte_val c - 48) as Hd.
  { unfold is_digit in Hc. apply andb_prop in Hc as [H1 _]. lia. }
  pose proof (dec_val_ge cs (10 * n + (byte_val c - 48)) Hcs ltac:(lia)).
  rewrite parse16_step by (done || lia). apply IH; [done|lia|done].
Qed.

(** X3. [makePort] succeeds exactly on the addresses [SplitHostPort] accepts
    whose port is a decimal integer that fits in 16 bits, and then returns
    the number the port denotes. *)
Theorem makePort_success (addr : string) (v : Z) :
  makePort addr = (v, None)
  ↔ ∃ h ps, net.SplitHostPort addr = (h, ps, None) ∧ decimal_u16 ps ∧ v = dec_val ps 0.
Proof.
  unfold makePort. split.
  - destruct (net.SplitHostPort addr) as [[h ps] [e|]] eqn:Hs; [done|].
    destruct (strconv.ParseUint ps 10 16) as [v' [e|]] eqn:Hu; [done|].
    intros [= <-]. apply ParseUint16_ok in Hu as [Hdec ->].
    exists h, ps. split_and!; [done..|].
    destruct Hdec as (_ & Hall & Hle).
    pose proof (dec_val_ge ps 0 Hall ltac:(lia)). apply Z.mod_small. lia.
  - intros (h & ps & -> & (Hne & Hall & Hle) & ->).
    unfold strconv.ParseUint. destruct (String.eqb_spec ps "") as [->|_]; [done|].
    cbn [negb andb orb Z.leb Z.ltb Z.eqb Z.compare Pos.compare Pos.compare_cont].
    rewrite parse16_complete by (done || lia).
    pose proof (dec_val_ge ps 0 Hall ltac:(lia)). f_equal. apply Z.mod_small. lia.
Qed.

(** ** Serving on an assigned port *)

Lemma Split_no_sep (s : string) (sep : ascii) :
  no_byte sep s → gostrings.Split s sep = [s].
Proof.
  unfold no_byte. induction s as [|a s IH]; cbn [string_all gostrings.Split]; [done|].
  intros [Ha Hs]%andb_prop. rewrite (IH Hs).
  by destruct (Ascii.eqb a sep).
Qed.

Lemma Split_at_sep (h t : string) (sep : ascii) :
  no_byte sep h → gostrings.Split (h +:+ String sep t) sep = h :: gostrings.Split t sep.
Proof.
  unfold no_byte. induction h as [|a h IH]; simpl.
  - intros _. by rewrite Ascii.eqb_refl.
  - intros [Ha Hs]%andb_prop. rewrite (IH Hs).
    by destruct (Ascii.eqb a sep).
Qed.

Lemma digits_no_colon (s : string) : string_all is_digit s = true → no_byte ":" s.
Proof.
  unfold no_byte. induction s as [|a s IH]; cbn [string_all]; [done|].
  intros [Ha Hs]%andb_prop. rewrite (IH Hs), andb_true_r.
  destruct (Ascii.eqb_spec a ":") as [->|]; [|done]. by vm_compute in Ha.
Qed.



(** A listener bound to the IPv6 wildcard has an address of the form
    [[::]:port]: the text before its first colon is an opening bracket and
    the text after it is empty, so with port 0 the host becomes that
    bracket and the port stays 0. *)
Example ListenAndServe_wildcard_address :
  let net_Listen := λ _ _ : string, inl {| net.laddr := "[::]:40123" |} : net.Listener + error in
  let http_Serve := λ (_ : http.Server) (_ : net.Listener), OpError "closed" in
  let st := {| srv := set_host_port ex_server "" 0; heap := ∅;
               next_chan := 1%positive; trace := [] |} in
  match ListenAndServe net_Listen http_Serve (λ h _, h) st with
  | Some (_, st') => Some (Host (srv st'), Port (srv st'))
  | None => None
  end = Some ("["%string, 0).
Proof. reflexivity. Qed.

(** ** Well-formedness is kept *)

Lemma New_builds_server_state (name host : string) (port : Z) :
  ∃ s, New name host port = (Some s, None) ∧ wf (init_state s).
Proof. eexists. split; [reflexivity|]. by apply wf_init. Qed.

Lemma wf_run_setter (c : setter_call) (st : State) (st' : State) :
  wf st → (s ← get_srv; put_srv (run_setter c s)) st = Some ((), st') → wf st'.
Proof.
  intros Hwf [= <-]. destruct Hwf as (H1 & H2 & H3).
  split_and!; [|done..]. simpl. by destruct c.
Qed.

Lemma run_op_wf (o : op) (st : State) :
  wf st → ∃ st', run_op o st = Some ((), st') ∧ wf st'.
Proof.
  intros Hwf. destruct o as [wsConn|file|msg|c|c]; cbn [run_op].
  - eexists. split; [apply newConn_run|].
    eapply wf_newConn; [done|apply newConn_run].
  - eexists. split; [by apply Reload_run|]. by apply wf_add_events.
  - eexists. split; [by apply Alert_run|]. by apply wf_add_events.
  - eexists. split; [apply close_conn_run|].
    apply (wf_shrink st); [done|]. by apply subseteq_difference_l.
  - eexists. split; [reflexivity|]. by eapply wf_run_setter.
Qed.

Lemma run_ops_wf (ops : list op) (st : State) :
  wf st → ∃ st', for_range ops run_op st = Some ((), st') ∧ wf st'.
Proof.
  revert st. induction ops as [|o ops IH]; intros st Hwf.
  - by exists st.
  - destruct (run_op_wf o st Hwf) as (st1 & Hrun & Hwf1).
    destruct (IH st1 Hwf1) as (st' & Hrun' & Hwf').
    exists st'. split; [|done].
    cbn [for_range]. by rewrite bind_run, Hrun.
Qed.

(** X2. From construction on, no accept, broadcast, close or setter call
    panics, and every state reached is well-formed. *)
Theorem operations_keep_wf (name host : string) (port : Z) (ops : list op) :
  ∃ s st', New name host port = (Some s, None)
    ∧ for_range ops run_op (init_state s) = Some ((), st')
    ∧ wf st'.
Proof.
  destruct (New_builds_server_state name host port) as (s & Hs & Hwf).
  destruct (run_ops_wf ops (init_state s) Hwf) as (st' & Hrun & Hwf').
  by exists s, st'.
Qed.

(** ** Sequences of broadcasts *)

Lemma printed_app (e1 e2 : list event) : printed (e1 ++ e2) = printed e1 ++ printed e2.
Proof. apply omap_app. Qed.

Lemma printed_sends (evs : list event) :
  Forall (λ e, is_send e = true) evs → printed evs = [].
Proof.
  induction 1 as [|e evs He _ IH]; [done|]. by destruct e.
Qed.

Lemma printed_status (s : Server) (msg : list string) :
  printed (status_events s msg)
  = match statusLog s with Some l => [(l, msg)] | None => [] end.
Proof. unfold status_events. by destruct (statusLog s). Qed.

(** One call of [Reload] or [Alert], with everything it leaves in the trace. *)
Lemma run_call_run (cl : call) (st : State) :
  wf st →
  ∃ evs, run_call cl st = Some ((), add_events st evs)
    ∧ printed evs = match statusLog (srv st) with
                    | Some l => [(l, [request_line cl])]
                    | None => []
                    end
    ∧ ∀ p o, heap st !! p = Some o →
        sends_on (reloadChan o) evs
        = (if decide (p ∈ conns (srv st)) then reload_files [cl] else [])
        ∧ sends_on (alertChan o) evs
          = (if decide (p ∈ conns (srv st)) then alert_msgs [cl] else [])
        ∧ sends_on (closeChan o) evs = [].
Proof.
  intros Hwf. destruct cl as [file|msg]; cbn [run_call request_line].
  - eexists. split; [by apply Reload_run|]. split.
    + by rewrite printed_app, printed_status, (printed_sends _ (send_events_is_send _ _ _ _)),
        app_nil_r.
    + intros p o Hp.
      destruct (broadcast_sends reloadChan file st p o Hwf reloadChan_in_chans Hp) as [H1 H2].
      destruct (chans_distinct o (wf_chans_NoDup st p o Hwf Hp)) as (? & ? & ?).
      rewrite !sends_on_app, !sends_on_status. cbn [app]. rewrite H1.
      rewrite !H2 by auto using alertChan_in_chans, closeChan_in_chans.
      split_and!; [|by destruct (decide _)|done]. by destruct (decide _).
  - eexists. split; [by apply Alert_run|]. split.
    + by rewrite printed_app, printed_status, (printed_sends _ (send_events_is_send _ _ _ _)),
        app_nil_r.
    + intros p o Hp.
      destruct (broadcast_sends alertChan msg st p o Hwf alertChan_in_chans Hp) as [H1 H2].
      destruct (chans_distinct o (wf_chans_NoDup st p o Hwf Hp)) as (? & ? & ?).
      rewrite !sends_on_app, !sends_on_status. cbn [app]. rewrite H1.
      rewrite !H2 by auto using reloadChan_in_chans, closeChan_in_chans.
      split_and!; [by destruct (decide _)| |done]. by destruct (decide _).
Qed.

(** X4. Any sequence of [Reload] and [Alert] calls returns, and leaves on
    the reload channel of every registered connection the files of the
    [Reload] calls in call order, on its alert channel the messages of the
    [Alert] calls in call order, and nothing on its close channel or on any
    channel of an unregistered connection; with a status logger one request
    line is printed per call, in call order, and without one nothing is. *)
Theorem broadcast_sequence (st : State) (cls : list call) :
  wf st →
  ∃ evs, run_calls cls st = Some ((), add_events st evs)
    ∧ printed evs = match statusLog (srv st) with
                    | Some l => (λ c, (l, [request_line c])) <$> cls
                    | None => []
                    end
    ∧ ∀ p o, heap st !! p = Some o →
        sends_on (reloadChan o) evs
        = (if decide (p ∈ conns (srv st)) then reload_files cls else [])
        ∧ sends_on (alertChan o) evs
          = (if decide (p ∈ conns (srv st)) then alert_msgs cls else [])
        ∧ sends_on (closeChan o) evs = [].
Proof.
  revert st. induction cls as [|cl cls IH]; intros st Hwf.
  - exists []. rewrite add_events_nil. split; [done|]. split.
    + by destruct (statusLog (srv st)).
    + intros p o _. by destruct (decide _).
  - destruct (run_call_run cl st Hwf) as (e1 & Hrun1 & Hp1 & Hs1).
    destruct (IH (add_events st e1)) as (e2 & Hrun2 & Hp2 & Hs2); [done|].
    exists (e1 ++ e2). split_and!.
    + unfold run_calls in *. cbn [for_range]. rewrite bind_run, Hrun1, Hrun2.
      by rewrite add_events_app.
    + rewrite printed_app, Hp1, Hp2. cbn [srv add_events].
      by destruct (statusLog (srv st)).
    + intros p o Hp. destruct (Hs1 p o Hp) as (A1 & B1 & C1).
      destruct (Hs2 p o Hp) as (A2 & B2 & C2). cbn [srv add_events] in A2, B2.
      rewrite !sends_on_app, A1, B1, C1, A2, B2, C2.
      unfold reload_files, alert_msgs.
      destruct (decide (p ∈ conns (srv st))); [|done].
      split_and!; [by destruct cl..|done].
Qed.

Lemma broadcast_sequence_witness :
  wf ex_state
  ∧ ∃ evs, run_calls [CallReload "a.css"; CallAlert "oops"; CallReload "b.js"] ex_state
           = Some ((), add_events ex_state evs)
    ∧ sends_on 1 evs = ["a.css"; "b.js"]%string
    ∧ sends_on 2 evs = ["oops"%string]
    ∧ sends_on 7 evs = []
    ∧ length (printed evs) = 3%nat.
Proof.
  split; [exact wf_ex_state|].
  destruct (broadcast_sequence ex_state
              [CallReload "a.css"; CallAlert "oops"; CallReload "b.js"] wf_ex_state)
    as (evs & Hrun & Hp & Hs).
  exists evs. split; [exact Hrun|].
  destruct (Hs 1%positive (ex_conn 11 1 2 3) eq_refl) as (A & B & _).
  destruct (Hs 3%positive (ex_conn 13 7 8 9) eq_refl) as (C & _ & _).
  split; [exact A|]. split; [exact B|]. split; [exact C|].
  rewrite Hp. reflexivity.
Defined.

(** ** Accepting several connections *)

Lemma omap_ext_elem {A B} (f g : A → option B) (l : list A) :
  (∀ x, x ∈ l → f x = g x) → omap f l = omap g l.
Proof.
  induction l as [|x l IH]; intros H; [done|]. cbn [omap list_omap].
  rewrite (H x) by left. rewrite IH; [done|]. intros y Hy. apply H. by right.
Qed.

Lemma newConn_registered_sockets (wsConn : socket) (st st' : State) :
  wf st → newConn wsConn st = Some ((), st') →
  registered_sockets st' ≡ₚ wsConn :: registered_sockets st
  ∧ size (conns (srv st')) = S (size (conns (srv st)))
  ∧ srv st' = set_conns (srv st) (conns (srv st')).
Proof.
  intros Hwf. rewrite newConn_run. intros [= <-].
  destruct (fresh_conn_unused st Hwf) as [Hnone Hout].
  set (c := fresh (dom (heap st))) in *. split_and!.
  - unfold registered_sockets, range. cbn [srv heap conns set_conns].
    rewrite (elements_union_singleton _ _ Hout). cbn [omap list_omap].
    rewrite lookup_insert_eq. cbn [fmap option_fmap option_map new_conn_of ws].
    constructor. apply reflexive_eq, omap_ext_elem. intros p Hp.
    rewrite lookup_insert_ne; [done|]. intros <-. by apply elem_of_elements in Hp.
  - cbn [srv conns set_conns]. rewrite size_union by set_solver.
    by rewrite size_singleton.
  - done.
Qed.

Lemma newConn_registers_wf (wsConn : socket) (st : State) :
  wf st → ∃ st', newConn wsConn st = Some ((), st') ∧ wf st'.
Proof.
  intros Hwf. eexists. split; [apply newConn_run|].
  eapply wf_newConn; [done|apply newConn_run].
Qed.

(** Accepting the sockets of [wss] one after the other. *)
Lemma accept_all (wss : list socket) (st : State) :
  wf st →
  ∃ st', for_range wss newConn st = Some ((), st')
    ∧ wf st'
    ∧ registered_sockets st' ≡ₚ wss ++ registered_sockets st
    ∧ size (conns (srv st')) = (length wss + size (conns (srv st)))%nat
    ∧ srv st' = set_conns (srv st) (conns (srv st')).
Proof.
  revert st. induction wss as [|w wss IH]; intros st Hwf.
  - exists st. split_and!; try done. by destruct st as [[]].
  - destruct (newConn_registers_wf w st Hwf) as (st1 & Hrun1 & Hwf1).
    destruct (newConn_registered_sockets w st st1 Hwf Hrun1) as (Hp1 & Hs1 & Hc1).
    destruct (IH st1 Hwf1) as (st' & Hrun & Hwf' & Hp & Hs & Hc).
    exists st'. split_and!.
    + cbn [for_range]. by rewrite bind_run, Hrun1.
    + done.
    + rewrite Hp, Hp1. cbn [app]. by rewrite Permutation_middle.
    + rewrite Hs, Hs1. cbn [length]. lia.
    + rewrite Hc, Hc1. done.
Qed.

Lemma send_events_values h sel v l :
  Forall (λ e, ∃ ch, e = EvSend ch v) (send_events h sel v l).
Proof.
  induction l as [|p l IH]; [constructor|]. rewrite send_events_cons.
  destruct (h !! p); [|done]. constructor; [by eexists|done].
Qed.

Lemma send_channels_send_events (st : State) sel v l :
  wf st → (∀ o, sel o ∈ chans o) → NoDup l →
  NoDup (send_channels (send_events (heap st) sel v l)).
Proof.
  intros Hwf Hsel. induction 1 as [|p l Hp Hnd IH]; [constructor|].
  rewrite send_events_cons. destruct (heap st !! p) as [o|] eqn:Ho; [|done].
  unfold send_channels in *. cbn [omap list_omap]. constructor; [|done].
  intros Hin. apply list_elem_of_omap in Hin as (e & He & Hch).
  apply list_elem_of_omap in He as (q & Hq & Heq).
  destruct (heap st !! q) as [o'|] eqn:Ho'; [|done]. simplify_eq/=.
  apply Hp. assert (q = p) as -> by (eapply (wf_chan_owner st q p o' o (sel o')); eauto;
                                     by rewrite Hch). done.
Qed.

(** X5. On a server just built, accepting the sockets [wss] registers one
    connection per socket, and a [Reload] then prints its request on the
    default status logger (standard output, prefix [[name] ]) and issues
    exactly one send of the file per accepted socket, each on a channel of
    its own. *)
Theorem accepts_then_Reload (name host : string) (port : Z) (wss : list socket)
    (file : string) :
  ∃ s st' sends,
    New name host port = (Some s, None)
    ∧ for_range wss newConn (init_state s) = Some ((), st')
    ∧ registered_sockets st' ≡ₚ wss
    ∧ size (conns (srv st')) = length wss
    ∧ Reload file st'
      = Some ((), add_events st'
                    (EvPrintln (log.New log.Stdout ("[" +:+ name +:+ "] ") 0)
                               ["requesting reload: " +:+ file] :: sends))
    ∧ length sends = length wss
    ∧ Forall (λ e, ∃ ch, e = EvSend ch file) sends
    ∧ NoDup (send_channels sends).
Proof.
  destruct (New_builds_server_state name host port) as (s & Hs & Hwf).
  destruct (accept_all wss (init_state s) Hwf) as (st' & Hrun & Hwf' & Hp & Hsz & Hc).
  exists s, st', (send_events (heap st') reloadChan file (range (conns (srv st')))).
  injection Hs as <-.
  split_and!.
  - done.
  - done.
  - rewrite Hp. unfold registered_sockets, range. cbn. by rewrite elements_empty, app_nil_r.
  - rewrite Hsz. cbn. rewrite size_empty. lia.
  - rewrite Reload_run by done. rewrite Hc. reflexivity.
  - rewrite send_events_length.
    + unfold range. change (length (elements ?X)) with (size X). rewrite Hsz. cbn.
      rewrite size_empty. lia.
    + intros p Hin. apply (wf_lookup st'); [done|]. by apply elem_of_elements.
  - apply send_events_values.
  - apply send_channels_send_events; [done|apply reloadChan_in_chans|apply NoDup_elements].
Qed.

(** ** Addresses with a host *)

Lemma append_nil (s : string) : "" +:+ s = s.
Proof. reflexivity. Qed.

Lemma append_cons (a : ascii) (s t : string) : String a s +:+ t = String a (s +:+ t).
Proof. reflexivity. Qed.

Lemma no_byte_IndexByte (c : ascii) (s : string) : no_byte c s ↔ IndexByte s c = -1.
Proof.
  unfold no_byte. induction s as [|a s IH]; cbn [string_all IndexByte]; [done|].
  pose proof (IndexByte_range s c).
  destruct (Ascii.eqb a c); cbn [negb andb]; [split; [done|lia]|].
  rewrite IH. destruct (Z.ltb_spec (IndexByte s c) 0); split; lia.
Qed.

Lemma no_byte_LastIndexByte (c : ascii) (s : string) : no_byte c s → LastIndexByte s c = -1.
Proof.
  unfold no_byte. induction s as [|a s IH]; cbn [string_all LastIndexByte]; [done|].
  intros [Ha Hs]%andb_prop. rewrite (IH Hs). cbn.
  by destruct (Ascii.eqb a c).
Qed.

Lemma no_byte_app (c : ascii) (s t : string) : no_byte c s → no_byte c t → no_byte c (s +:+ t).
Proof.
  unfold no_byte. induction s as [|a s IH]; [done|].
  rewrite append_cons. cbn [string_all].
  intros [Ha Hs]%andb_prop Ht. by rewrite Ha, IH.
Qed.

Lemma digits_no_byte (c : ascii) (s : string) :
  is_digit c = false → string_all is_digit s = true → no_byte c s.
Proof.
  intros Hc. unfold no_byte. induction s as [|a s IH]; cbn [string_all]; [done|].
  intros [Ha Hs]%andb_prop. rewrite (IH Hs), andb_true_r.
  destruct (Ascii.eqb_spec a c) as [->|]; [congruence|done].
Qed.

Lemma len_nonneg (s : string) : 0 ≤ len s.
Proof. unfold len. lia. Qed.

(** The last [c] of [h ++ c :: t] when [t] has none. *)
Lemma LastIndexByte_app (c : ascii) (h t : string) :
  no_byte c t → LastIndexByte (h +:+ String c t) c = len h.
Proof.
  intros Ht. induction h as [|a h IH];
    rewrite ?append_nil, ?append_cons; cbn [LastIndexByte].
  - rewrite (no_byte_LastIndexByte c t Ht). cbn. by rewrite Ascii.eqb_refl.
  - rewrite IH. pose proof (len_nonneg h).
    destruct (Z.leb_spec 0 (len h)); [|lia]. unfold len. cbn [String.length]. lia.
Qed.

Lemma slice_prefix (h t : string) : slice (h +:+ t) 0 (len h) = h.
Proof.
  unfold slice, len. rewrite Z.sub_0_r, Nat2Z.id. change (Z.to_nat 0) with 0%nat.
  induction h as [|a h IH];
    rewrite ?append_nil, ?append_cons; cbn [String.length String.substring].
  - by destruct t.
  - by rewrite IH.
Qed.

Lemma slice_from_app (c : ascii) (h t : string) :
  slice_from (h +:+ String c t) (len h + 1) = t.
Proof.
  induction h as [|a h IH]; rewrite ?append_nil, ?append_cons.
  - change (len "" + 1) with (0 + 1). by rewrite slice_from_succ, slice_from_0.
  - replace (len (String a h) + 1) with ((len h + 1) + 1)
      by (unfold len; cbn [String.length]; lia).
    rewrite slice_from_succ by (pose proof (len_nonneg h); lia). exact IH.
Qed.

Lemma byte_at_0_app (c : ascii) (h t : string) :
  no_byte "[" h → c ≠ "["%char →
  match byte_at (h +:+ String c t) 0 with
  | Some a => Ascii.eqb a "["
  | None => false
  end = false.
Proof.
  unfold no_byte. destruct h as [|a h]; rewrite ?append_nil, ?append_cons; cbn.
  - intros _ Hc. by apply Ascii.eqb_neq.
  - intros [Ha _]%andb_prop. by apply negb_true_iff in Ha.
Qed.

(** [SplitHostPort] on a plain host, a colon and decimal digits. *)
Lemma SplitHostPort_host_digits (h ds : string) :
  plain_host h → string_all is_digit ds = true →
  net.SplitHostPort (h +:+ String ":" ds) = (h, ds, None).
Proof.
  intros (Hc & Hl & Hr) Hds. unfold net.SplitHostPort.
  rewrite LastIndexByte_app by by apply (digits_no_byte ":").
  pose proof (len_nonneg h). destruct (Z.ltb_spec (len h) 0); [lia|].
  rewrite byte_at_0_app by done.
  rewrite slice_prefix, slice_from_0, slice_from_app.
  apply no_byte_IndexByte in Hc. rewrite Hc. cbn [Z.leb Z.compare].
  assert (no_byte "[" (h +:+ String ":" ds)) as H1%no_byte_IndexByte.
  { apply no_byte_app; [done|]. unfold no_byte. cbn [string_all].
    apply andb_true_intro. split; [reflexivity|by apply (digits_no_byte "[")]. }
  assert (no_byte "]" (h +:+ String ":" ds)) as H2%no_byte_IndexByte.
  { apply no_byte_app; [done|]. unfold no_byte. cbn [string_all].
    apply andb_true_intro. split; [reflexivity|by apply (digits_no_byte "]")]. }
  by rewrite H1, H2.
Qed.

Lemma append_assoc (s t u : string) : (s +:+ t) +:+ u = s +:+ (t +:+ u).
Proof.
  induction s as [|a s IH]; [done|]. rewrite !append_cons. by rewrite IH.
Qed.

Lemma len_app (s t : string) : len (s +:+ t) = len s + len t.
Proof.
  induction s as [|a s IH]; [unfold len; rewrite append_nil; cbn; lia|].
  rewrite append_cons. unfold len in *. cbn [String.length]. lia.
Qed.

Lemma len_cons (a : ascii) (s : string) : len (String a s) = len s + 1.
Proof. unfold len. cbn [String.length]. lia. Qed.

(** The first [c] of [h ++ c :: t] when [h] has none. *)
Lemma IndexByte_app (c : ascii) (h t : string) :
  no_byte c h → IndexByte (h +:+ String c t) c = len h.
Proof.
  unfold no_byte. induction h as [|a h IH];
    rewrite ?append_nil, ?append_cons; cbn [IndexByte string_all].
  - intros _. by rewrite Ascii.eqb_refl.
  - intros [Ha Hs]%andb_prop. apply negb_true_iff in Ha. rewrite Ha, (IH Hs).
    pose proof (len_nonneg h). destruct (Z.ltb_spec (len h) 0); [lia|].
    by rewrite len_cons.
Qed.

Lemma no_byte_cons (c a : ascii) (s : string) :
  no_byte c (String a s) ↔ a ≠ c ∧ no_byte c s.
Proof.
  unfold no_byte. cbn [string_all]. rewrite andb_true_iff, negb_true_iff.
  by rewrite Ascii.eqb_neq.
Qed.

(** [SplitHostPort] on a bracketed host, a colon and decimal digits. *)
Lemma SplitHostPort_bracketed (h ds : string) :
  no_byte "[" h → no_byte "]" h → string_all is_digit ds = true →
  net.SplitHostPort (String "[" (h +:+ String "]" (String ":" ds))) = (h, ds, None).
Proof.
  intros Hl Hr Hds.
  set (hp := String "[" (h +:+ String "]" (String ":" ds))).
  assert (hp = String "[" (h +:+ "]") +:+ String ":" ds) as Hhp.
  { unfold hp. rewrite append_cons, append_assoc. done. }
  assert (LastIndexByte hp ":" = len h + 2) as Hi.
  { rewrite Hhp, LastIndexByte_app by by apply (digits_no_byte ":").
    rewrite len_cons, len_app. unfold len. cbn. lia. }
  assert (IndexByte hp "]" = len h + 1) as Hend.
  { unfold hp. change (String "[" (h +:+ String "]" (String ":" ds)))
      with (String "[" h +:+ String "]" (String ":" ds)).
    rewrite IndexByte_app; [apply len_cons|]. by apply no_byte_cons. }
  assert (len hp = len h + 3 + len ds) as Hlen.
  { unfold hp. rewrite len_cons, len_app, !len_cons. lia. }
  pose proof (len_nonneg h). pose proof (len_nonneg ds).
  unfold net.SplitHostPort. fold hp. rewrite Hi, Hend.
  destruct (Z.ltb_spec (len h + 2) 0); [lia|].
  assert (byte_at hp 0 = Some "["%char) as -> by done. rewrite Ascii.eqb_refl.
  destruct (Z.ltb_spec (len h + 1) 0); [lia|].
  rewrite Hlen. destruct (Z.eqb_spec (len h + 1 + 1) (len h + 3 + len ds)); [lia|].
  destruct (Z.eqb_spec (len h + 1 + 1) (len h + 2)); [|lia].
  assert (slice_from hp 1 = h +:+ String "]" (String ":" ds)) as ->.
  { unfold hp. by rewrite (slice_from_succ "[" _ 0), slice_from_0. }
  assert (slice_from hp (len h + 1 + 1) = String ":" ds) as ->.
  { unfold hp. rewrite slice_from_succ by lia. apply slice_from_app. }
  assert (slice_from hp (len h + 2 + 1) = ds) as ->.
  { rewrite Hhp. replace (len h + 2 + 1) with (len (String "[" (h +:+ "]")) + 1).
    - apply slice_from_app.
    - rewrite len_cons, len_app. unfold len. cbn. lia. }
  assert (slice hp 1 (len h + 1) = h) as ->.
  { unfold hp, slice. replace (Z.to_nat (len h + 1 - 1)) with (String.length h)
      by (unfold len; lia).
    change (Z.to_nat 1) with 1%nat. cbn [String.substring].
    pose proof (slice_prefix h (String "]" (String ":" ds))) as Hs.
    unfold slice, len in Hs. rewrite Z.sub_0_r, Nat2Z.id in Hs. exact Hs. }
  assert (no_byte "[" (h +:+ String "]" (String ":" ds))) as Hnl%no_byte_IndexByte.
  { apply no_byte_app; [done|]. apply no_byte_cons. split; [done|].
    apply no_byte_cons. split; [done|]. by apply (digits_no_byte "["). }
  assert (no_byte "]" (String ":" ds)) as Hnr%no_byte_IndexByte.
  { apply no_byte_cons. split; [done|]. by apply (digits_no_byte "]"). }
  by rewrite Hnl, Hnr.
Qed.

Lemma Addr_unfold (s : Server) : Addr s = Host s +:+ String ":" (fmt.d (Port s)).
Proof. reflexivity. Qed.

Lemma fmt_d_digits (p : Z) : 0 ≤ p → string_all is_digit (fmt.d p) = true.
Proof. intros Hp. by apply fmt_digits_all_digits. Qed.

(** X6. For a server whose port is a 16-bit number, [makePort] reads the
    port back from [Addr] when the host is plain (no colon, no bracket;
    the empty host too) and when it is an IPv6 literal in brackets; when
    the host has a colon and does not start with a bracket, [makePort]
    fails on [Addr] with the error "too many colons in address". *)
Theorem makePort_Addr (s : Server) (h6 : string) :
  0 ≤ Port s < 2 ^ 16 →
  (plain_host (Host s) → makePort (Addr s) = (Port s, None))
  ∧ (Host s = String "[" (h6 +:+ "]") → no_byte "[" h6 → no_byte "]" h6 →
     makePort (Addr s) = (Port s, None))
  ∧ (¬ no_byte ":" (Host s) → ¬ starts_with "[" (Host s) →
     makePort (Addr s) = (0, Some (AddrError net.tooManyColons (Addr s)))).
Proof.
  intros Hp. pose proof (fmt_d_digits (Port s) ltac:(lia)) as Hds. split_and!.
  - intros Hh. unfold makePort. rewrite Addr_unfold, SplitHostPort_host_digits by done.
    rewrite ParseUint16_fmt by lia. f_equal. apply Z.mod_small. lia.
  - intros Hh Hl Hr. unfold makePort. rewrite Addr_unfold, Hh.
    rewrite append_cons, append_assoc, append_cons, append_nil.
    rewrite SplitHostPort_bracketed by done.
    rewrite ParseUint16_fmt by lia. f_equal. apply Z.mod_small. lia.
  - intros Hc Hb. unfold makePort, net.SplitHostPort. rewrite Addr_unfold.
    rewrite LastIndexByte_app by by apply (digits_no_byte ":").
    pose proof (len_nonneg (Host s)). destruct (Z.ltb_spec (len (Host s)) 0); [lia|].
    assert (match byte_at (Host s +:+ String ":" (fmt.d (Port s))) 0 with
            | Some c => Ascii.eqb c "["
            | None => false
            end = false) as ->.
    { destruct (Host s) as [|a h] eqn:E; [done|]. rewrite append_cons. cbn.
      apply Ascii.eqb_neq. intros ->. apply Hb. by exists h. }
    rewrite slice_prefix.
    destruct (Z.leb_spec 0 (IndexByte (Host s) ":")) as [|Hlt]; [done|].
    exfalso. apply Hc, no_byte_IndexByte.
    pose proof (IndexByte_range (Host s) ":"). lia.
Qed.

Lemma makePort_Addr_witness :
  0 ≤ Port ex_server < 2 ^ 16 ∧ plain_host (Host ex_server)
  ∧ makePort (Addr ex_server) = (35729, None)
  ∧ makePort (Addr (set_host_port ex_server "[::1]" 8080)) = (8080, None)
  ∧ makePort (Addr (set_host_port ex_server "::1" 8080))
    = (0, Some (AddrError net.tooManyColons "::1:8080")).
Proof.
  assert (0 ≤ Port ex_server < 2 ^ 16) as H1 by (cbn; lia).
  assert (plain_host (Host ex_server)) as H2 by (by split_and!).
  split; [exact H1|]. split; [exact H2|]. split_and!.
  - exact (proj1 (makePort_Addr ex_server "" H1) H2).
  - refine (proj1 (proj2 (makePort_Addr (set_host_port ex_server "[::1]" 8080) "::1" _))
              eq_refl _ _); [cbn; lia|reflexivity..].
  - refine (proj2 (proj2 (makePort_Addr (set_host_port ex_server "::1" 8080) "" _)) _ _).
    + cbn; lia.
    + intros H. discriminate H.
    + intros [t Ht]. discriminate Ht.
Defined.

(** ** What [ListenAndServe] leaves alone *)


(** The part of [ListenAndServe] after the listener is bound and host and
    port are settled. *)
Lemma ListenAndServe_tail
    (http_Serve : http.Server → net.Listener → error)
    (Sprintf_js : string → Z → string) (l : net.Listener) (st : State) :
  (s ← get_srv;
   put_srv (set_js s (Sprintf_js (host s) (port s)));;
   s ← get_srv;
   logStatus ["listening on " +:+ http.Addr (server s)];;
   emit (EvServe l);;
   mret (Some (http_Serve (server s) l))) st
  = Some (Some (http_Serve (server (srv st)) l), serving_state Sprintf_js st (srv st) l).
Proof.
  unfold serving_state.
  repeat (rewrite bind_run; cbn [get_srv put_srv mret M_ret srv]).
  rewrite logStatus_run.
  repeat (rewrite bind_run; cbn [get_srv put_srv mret M_ret srv]).
  rewrite emit_run, add_events_app. reflexivity.
Qed.



(** ** Serving on an assigned port of an IPv6 listener *)




(** ** Setters, one after the other *)






(** ** The errors of [makePort] *)

(** A byte that is no decimal digit ends the parse with a syntax error. *)
Lemma parse16_non_digit (s0 : string) (c : ascii) (cs : string) (n : Z) :
  is_digit c = false →
  parse16 s0 (String c cs) n = (0, Some (NumError "ParseUint" s0 ErrSyntax)).
Proof.
  intros Hc. cbn [strconv.parse_loop]. unfold strconv.digit_of.
  unfold is_digit in Hc. rewrite Hc.
  destruct ((97 <=? strconv.lower (byte_val c)) && (strconv.lower (byte_val c) <=? 122))
    eqn:E; [|done].
  apply andb_prop in E as [E1 E2].
  destruct (Z.leb_spec 10 (strconv.lower (byte_val c) - 97 + 10)); [done|lia].
Qed.

(** Digits whose value fits are read and the parse goes on. *)
Lemma parse16_digits_app (s0 ds rest : string) (n : Z) :
  string_all is_digit ds = true → 0 ≤ n → dec_val ds n ≤ 65535 →
  parse16 s0 (ds +:+ rest) n = parse16 s0 rest (dec_val ds n).
Proof.
  revert n. induction ds as [|c ds IH]; intros n; [done|].
  rewrite append_cons. cbn [string_all dec_val].
  intros [Hc Hds]%andb_prop Hn Hle.
  assert (0 ≤ byte_val c - 48) as Hd.
  { unfold is_digit in Hc. apply andb_prop in Hc as [H1 _]. lia. }
  pose proof (dec_val_ge ds (10 * n + (byte_val c - 48)) Hds ltac:(lia)).
  rewrite parse16_step by (done || lia). apply IH; [done|lia|done].
Qed.

(** Digits whose value does not fit end the parse with a range error. *)
Lemma parse16_range (s0 cs : string) (n : Z) :
  string_all is_digit cs = true → 0 ≤ n ≤ 65535 → 65535 < dec_val cs n →
  parse16 s0 cs n = (65535, Some (NumError "ParseUint" s0 ErrRange)).
Proof.
  revert n. induction cs as [|c cs IH]; intros n; cbn [string_all dec_val]; [lia|].
  intros [Hc Hcs]%andb_prop Hn Hgt.
  destruct (Z.le_gt_cases (10 * n + (byte_val c - 48)) 65535) as [Hle|Hlt].
  - rewrite parse16_step by (done || lia). apply IH; [done| |done].
    unfold is_digit in Hc. apply andb_prop in Hc as [H1 _]. lia.
  - cbn [strconv.parse_loop]. rewrite (digit_of_is_digit c Hc).
    unfold is_digit in Hc. apply andb_prop in Hc as [H1 H2].
    change (strconv.maxUint64 `div` 10 + 1) with 1844674407370955162.
    change (2 ^ 16 - 1) with 65535. change (2 ^ 64) with 18446744073709551616.
    destruct (Z.leb_spec 10 (byte_val c - 48)); [lia|].
    destruct (Z.leb_spec 1844674407370955162 n); [lia|].
    rewrite (Z.mod_small (n * 10)) by lia.
    rewrite (Z.mod_small (n * 10 + _)) by lia.
    destruct (Z.ltb_spec (n * 10 + (byte_val c - 48)) (n * 10)); [lia|].
    destruct (Z.ltb_spec 65535 (n * 10 + (byte_val c - 48))); [done|lia].
Qed.

Lemma ParseUint16_unfold (s : string) :
  s ≠ EmptyString → strconv.ParseUint s 10 16 = parse16 s s 0.
Proof.
  intros Hs. unfold strconv.ParseUint. by destruct (String.eqb_spec s "").
Qed.

(** X11. The error [makePort] returns, always with port 0: the error of
    [SplitHostPort] when that fails; otherwise a syntax error for an empty
    port and for a port whose first non-digit follows digits that still
    fit in 16 bits, and a range error for a port of decimal digits whose
    value exceeds 65535. *)
Theorem makePort_errors (addr h ps : string) (e : option error) :
  net.SplitHostPort addr = (h, ps, e) →
  (∀ err, e = Some err → makePort addr = (0, Some err))
  ∧ (e = None → ps = EmptyString →
     makePort addr = (0, Some (NumError "ParseUint" "" ErrSyntax)))
  ∧ (e = None → ∀ ds c t, ps = ds +:+ String c t →
       string_all is_digit ds = true → dec_val ds 0 ≤ 65535 → is_digit c = false →
       makePort addr = (0, Some (NumError "ParseUint" ps ErrSyntax)))
  ∧ (e = None → string_all is_digit ps = true → 65535 < dec_val ps 0 →
     makePort addr = (0, Some (NumError "ParseUint" ps ErrRange))).
Proof.
  intros Hs. unfold makePort. rewrite Hs. split_and!.
  - by intros err ->.
  - by intros -> ->.
  - intros -> ds c t -> Hds Hle Hc.
    rewrite ParseUint16_unfold by by destruct ds.
    by rewrite parse16_digits_app, parse16_non_digit.
  - intros -> Hds Hgt.
    rewrite ParseUint16_unfold by (intros ->; cbn in Hgt; lia).
    by rewrite parse16_range.
Qed.

Lemma makePort_errors_witness :
  makePort "localhost:" = (0, Some (NumError "ParseUint" "" ErrSyntax))
  ∧ makePort ":80a" = (0, Some (NumError "ParseUint" "80a" ErrSyntax))
  ∧ makePort ":70000" = (0, Some (NumError "ParseUint" "70000" ErrRange))
  ∧ makePort "::1" = (0, Some (AddrError net.tooManyColons "::1")).
Proof.
  split_and!.
  - exact (proj1 (proj2 (makePort_errors "localhost:" "localhost" "" None eq_refl))
             eq_refl eq_refl).
  - exact (proj1 (proj2 (proj2 (makePort_errors ":80a" "" "80a" None eq_refl)))
             eq_refl "80"%string "a"%char ""%string eq_refl eq_refl
             ltac:(vm_compute; discriminate) eq_refl).
  - exact (proj2 (proj2 (proj2 (makePort_errors ":70000" "" "70000" None eq_refl)))
             eq_refl eq_refl ltac:(vm_compute; reflexivity)).
  - exact (proj1 (makePort_errors "::1" "" ""
                    (Some (AddrError net.tooManyColons "::1")) eq_refl) _ eq_refl).
Defined.

(** ** The shape of [makeAddr] *)

Lemma makePort_makeAddr_id (p : Z) : 0 ≤ p < 2 ^ 16 → makePort (makeAddr p) = (p, None).
Proof.
  intros Hp. unfold makePort, makeAddr.
  change (":" +:+ fmt.d p) with (String ":" (fmt.d p)).
  rewrite SplitHostPort_colon_digits by (apply fmt_d_digits; lia).
  rewrite ParseUint16_fmt by lia. f_equal. apply Z.mod_small. lia.
Qed.

(** X12. On 16-bit ports [makeAddr] is injective, and the address it makes
    is a colon followed by a non-empty string of decimal digits that
    denotes the port. *)
Theorem makeAddr_injective (p q : Z) :
  0 ≤ p < 2 ^ 16 → 0 ≤ q < 2 ^ 16 →
  (makeAddr p = makeAddr q → p = q)
  ∧ ∃ ds, makeAddr p = String ":" ds ∧ decimal_u16 ds ∧ dec_val ds 0 = p.
Proof.
  intros Hp Hq. split.
  - intros E. pose proof (makePort_makeAddr_id p Hp) as H1.
    rewrite E, (makePort_makeAddr_id q Hq) in H1. by injection H1.
  - exists (fmt.d p). split; [done|].
    pose proof (ParseUint16_fmt p ltac:(lia)) as H%ParseUint16_ok. by destruct H.
Qed.

Lemma makeAddr_injective_witness :
  (makeAddr 80 = makeAddr 8080 → 80 = 8080)
  ∧ ∃ ds, makeAddr 80 = String ":" ds ∧ decimal_u16 ds ∧ dec_val ds 0 = 80.
Proof.
  apply (makeAddr_injective 80 8080); lia.
Defined.

(** ** The address after serving on an assigned port *)

Example New_defaults : New DefaultName DefaultHost DefaultPort = (Some ex_server, None).
Proof. reflexivity. Qed.

(** [ListenAndServe] with port 0 on a listener at [h:p]. *)
Lemma ListenAndServe_assigned
    (net_Listen : string → string → net.Listener + error)
    (http_Serve : http.Server → net.Listener → error)
    (Sprintf_js : string → Z → string) (st : State) (l : net.Listener) (h : string) (p : Z) :
  net_Listen "tcp"%string (Addr (srv st)) = inl l → port (srv st) = 0 →
  net.laddr l = h +:+ String ":" (fmt.d p) → no_byte ":" h → 0 ≤ p < 2 ^ 16 →
  ListenAndServe net_Listen http_Serve Sprintf_js st
  = Some (Some (http_Serve (server (srv st)) l),
          serving_state Sprintf_js st (set_host_port (srv st) h p) l).
Proof.
  intros Hl Hp Hla Hh Hr. unfold ListenAndServe. rewrite bind_run. cbn [get_srv].
  rewrite Hl, bind_run, Hp, Hla. cbn [Z.eqb].
  rewrite Split_at_sep by done.
  rewrite Split_no_sep by (apply digits_no_colon, fmt_d_digits; lia).
  cbn [lookup list_lookup]. rewrite ParseUint16_fmt by lia.
  rewrite (Z.mod_small p) by lia. cbn [put_srv].
  by rewrite ListenAndServe_tail.
Qed.

(** X13. After [ListenAndServe] has taken an assigned port from a listener
    at [h:p], [h] a plain host, [Addr] is the listener's address,
    [makePort] reads [p] back from it, and the script was rendered for [h]
    and [p]. *)
Theorem ListenAndServe_then_Addr
    (net_Listen : string → string → net.Listener + error)
    (http_Serve : http.Server → net.Listener → error)
    (Sprintf_js : string → Z → string) (st : State) (l : net.Listener) (h : string) (p : Z) :
  net_Listen "tcp"%string (Addr (srv st)) = inl l → port (srv st) = 0 →
  net.laddr l = h +:+ String ":" (fmt.d p) → plain_host h → 0 ≤ p < 2 ^ 16 →
  ∃ r st', ListenAndServe net_Listen http_Serve Sprintf_js st = Some (r, st')
    ∧ Addr (srv st') = net.laddr l
    ∧ makePort (Addr (srv st')) = (p, None)
    ∧ js (srv st') = Sprintf_js h p.
Proof.
  intros Hl Hp Hla Hh Hr. eexists _, _. split.
  - apply (ListenAndServe_assigned _ _ _ st l h p); try done. by destruct Hh.
  - assert (Addr (srv (serving_state Sprintf_js st (set_host_port (srv st) h p) l))
            = h +:+ String ":" (fmt.d p)) as HA by done.
    rewrite HA. split_and!; [done| |done].
    unfold makePort. rewrite SplitHostPort_host_digits by (done || apply fmt_d_digits; lia).
    rewrite ParseUint16_fmt by lia. f_equal. apply Z.mod_small. lia.
Qed.

Lemma ListenAndServe_then_Addr_witness :
  let l := {| net.laddr := "127.0.0.1:" +:+ fmt.d 40123 |} in
  let net_Listen := λ _ _ : string, inl l : net.Listener + error in
  let http_Serve := λ (_ : http.Server) (_ : net.Listener), OpError "closed" in
  let Sprintf_js := λ (h : string) (_ : Z), h in
  let st := {| srv := set_host_port ex_server "" 0; heap := ∅;
               next_chan := 1%positive; trace := [] |} in
  net_Listen "tcp"%string (Addr (srv st)) = inl l
  ∧ port (srv st) = 0
  ∧ plain_host "127.0.0.1"
  ∧ ∃ r st', ListenAndServe net_Listen http_Serve Sprintf_js st = Some (r, st')
      ∧ Addr (srv st') = "127.0.0.1:40123"%string
      ∧ makePort (Addr (srv st')) = (40123, None)
      ∧ js (srv st') = "127.0.0.1"%string.
Proof.
  intros l net_Listen http_Serve Sprintf_js st.
  assert (plain_host "127.0.0.1") as Hh by (by split_and!).
  split; [reflexivity|]. split; [reflexivity|]. split; [exact Hh|].
  exact (ListenAndServe_then_Addr net_Listen http_Serve Sprintf_js st l
           "127.0.0.1" 40123 eq_refl eq_refl eq_refl Hh ltac:(lia)).
Defined.
